(** * IPC toolkit: conservative CCD controller and parallel reducers

    A shallow embedding of [src/ccd/ccd.cpp], [src/ipc.cpp] and
    [src/distance/line_line.hpp].

    Modelling conventions.
    - A C++ [double] is an exact rational ([Q]): the rounding of the
      arithmetic operations is abstracted away, so every statement below is
      one of exact arithmetic.  A decimal literal of the source stands for
      the [double] the compiler stores for it ([double_1e_6],
      [double_1e_2]), since a comparison with it rounds nothing.  The two
      reducers that use [std::numeric_limits<double>::infinity()] as a
      sentinel work over [double_inf], the rationals extended by that
      sentinel.  A floating-point division whose divisor is zero has no
      rational value; [fdiv] returns [None] for it.
    - [assert] is modelled as it behaves in a checked build: a violated
      assertion aborts the call ([AssertionFailed]).
    - Observable side effects (logger calls, oracle queries, launches of
      [tbb::parallel_for], exact intersection tests) are recorded in a
      trace carried by the [run] monad.
    - [tbb::parallel_for] is driven by an explicit schedule, the list of
      work items in the order in which they take effect. *)

From Stdlib Require Import QArith Qfield Lia Lqa Permutation.
From stdpp Require Import base option list gmap strings.

Local Open Scope Q_scope.

(** ** Numbers *)

Abbreviation double := Q (only parsing).

Definition Qltb (x y : double) : bool := negb (Qle_bool y x).

(** [x / y] in floating point is a finite number only when [y] is not zero. *)
Definition fdiv (x y : double) : option double :=
  if Qeq_bool y 0 then None else Some (x / y).

(** The literals [1e-6] and [1e-2] are not binary fractions: what is
    stored for them is the nearest [double], [4722366482869645 / 2^72]
    (below [1/10^6]) and [5764607523034235 / 2^59] (above [1/100]). *)
Definition double_1e_6 : double :=
  4722366482869645 # 4722366482869645213696.

Definition double_1e_2 : double :=
  5764607523034235 # 576460752303423488.

(** A [double] that may hold [std::numeric_limits<double>::infinity()]. *)
Inductive double_inf : Type :=
  | Fin (x : double)
  | Infinity.

(** [a < b] on [double_inf]. *)
Definition dlt (a b : double_inf) : bool :=
  match a, b with
  | Fin x, Fin y => Qltb x y
  | Fin _, Infinity => true
  | Infinity, _ => false
  end.

(** [a <= b] and [a >= b] on [double_inf]. *)
Definition dle (a b : double_inf) : bool :=
  match a, b with
  | Fin x, Fin y => Qle_bool x y
  | _, Infinity => true
  | Infinity, Fin _ => false
  end.

(** [std::min(a, b)] is [(b < a) ? b : a]. *)
Definition std_min (a b : double_inf) : double_inf :=
  if dlt b a then b else a.

(** Two [double_inf] hold the same number. *)
Definition deq (a b : double_inf) : Prop :=
  match a, b with
  | Fin x, Fin y => x == y
  | Infinity, Infinity => True
  | _, _ => False
  end.

(** ** Effects: traces and assertion failures *)

Inductive event : Type :=
  | LogWarn (msg : string)
  | OracleQuery (min_distance : double) (no_zero_toi : bool)
  | ParallelFor (first last : nat)
  | ExactTest (primitive0 primitive1 : nat).

Inductive run (A : Type) : Type :=
  | Returns (a : A) (trace : list event)
  | AssertionFailed.
Arguments Returns {A} a trace.
Arguments AssertionFailed {A}.

#[global] Instance run_ret : MRet run := fun A a => Returns a [].

#[global] Instance run_bind : MBind run := fun A B f m =>
  match m with
  | Returns a t1 =>
      match f a with
      | Returns b t2 => Returns b (t1 ++ t2)
      | AssertionFailed => AssertionFailed
      end
  | AssertionFailed => AssertionFailed
  end.

Definition emit (e : event) : run unit := Returns tt [e].

Definition assert (b : bool) : run unit :=
  if b then Returns tt [] else AssertionFailed.

(** The value a call returned, if it returned. *)
Definition value {A} (r : run A) : option A :=
  match r with Returns a _ => Some a | AssertionFailed => None end.

(** ** ccd.cpp: the conservative advancement controller *)

Module ccd.

(** The [std::function<bool(double, bool, double&)>] handed to
    [ccd_strategy]: minimum distance, [no_zero_toi] and the current content
    of [toi]; the result is the returned flag and the new content of [toi]. *)
Definition Oracle : Type := double → bool → double → bool * double.

(** [static constexpr double SMALL_TOI = 1e-6;] *)
Definition SMALL_TOI : double := double_1e_6.

Definition warn_zero_distance : string :=
  "Initial distance is 0, returning toi=0!".

(** One call of the closure [ccd]. *)
Definition query (ccd : Oracle) (min_distance : double) (no_zero_toi : bool)
    (toi : double) : run (bool * double) :=
  emit (OracleQuery min_distance no_zero_toi);;
  mret (ccd min_distance no_zero_toi toi).

(** [ccd_strategy]; the last argument is the content of [toi] on entry and
    the second component of the result its content on exit.  The flag
    declared inside the retry block is a new variable ([is_impacting']
    here): the function returns the flag of the first query. *)
Definition ccd_strategy (ccd : Oracle)
    (initial_distance conservative_rescaling : double) (toi : double)
    : run (bool * double) :=
  if Qeq_bool initial_distance 0 then
    emit (LogWarn warn_zero_distance);;
    mret (true, 0)
  else
    let min_distance := (1 - conservative_rescaling) * initial_distance in
    assert (Qltb min_distance initial_distance);;
    r1 ← query ccd min_distance false toi;
    let '(is_impacting, toi) := (r1 : bool * double) in
    if is_impacting && Qltb toi SMALL_TOI then
      r2 ← query ccd 0 true toi;
      let '(is_impacting', toi) := (r2 : bool * double) in
      if is_impacting' then
        let toi := toi * conservative_rescaling in
        assert (negb (Qeq_bool toi 0));;
        mret (is_impacting, toi)
      else mret (is_impacting, toi)
    else mret (is_impacting, toi).

End ccd.

(** ** line_line.hpp *)

Module distance.

Record Vector3d : Type := vec3 { vx : double; vy : double; vz : double }.

Definition sub (a b : Vector3d) : Vector3d :=
  vec3 (vx a - vx b) (vy a - vy b) (vz a - vz b).

Definition cross (a b : Vector3d) : Vector3d :=
  vec3 (vy a * vz b - vz a * vy b)
       (vz a * vx b - vx a * vz b)
       (vx a * vy b - vy a * vx b).

Definition dot (a b : Vector3d) : double :=
  vx a * vx b + vy a * vy b + vz a * vz b.

Definition squaredNorm (a : Vector3d) : double := dot a a.

(** [line_line_distance]: the quotient is computed without any test on the
    divisor. *)
Definition line_line_distance (ea0 ea1 eb0 eb1 : Vector3d) : option double :=
  let normal := cross (sub ea1 ea0) (sub eb1 eb0) in
  let line_to_line := dot (sub eb0 ea0) normal in
  fdiv (line_to_line * line_to_line) (squaredNorm normal).

(** The notions the statements about [line_line_distance] are written in:
    the point [p0 + s (p1 - p0)] of the line through [p0] and [p1], the
    squared distance of two points, and parallel directions. *)
Definition add (a b : Vector3d) : Vector3d :=
  vec3 (vx a + vx b) (vy a + vy b) (vz a + vz b).

Definition scale (k : double) (a : Vector3d) : Vector3d :=
  vec3 (k * vx a) (k * vy a) (k * vz a).

Definition veq (a b : Vector3d) : Prop :=
  vx a == vx b ∧ vy a == vy b ∧ vz a == vz b.

Definition point_on_line (p0 p1 : Vector3d) (s : double) : Vector3d :=
  add p0 (scale s (sub p1 p0)).

Definition squared_distance (a b : Vector3d) : double := squaredNorm (sub a b).

(** Two directions are parallel when they are linearly dependent (a
    direction of length zero is parallel to every direction). *)
Definition parallel (a b : Vector3d) : Prop :=
  ∃ α β, (¬ α == 0 ∨ ¬ β == 0) ∧ veq (scale α a) (scale β b).

(** The parameters of the two points at which the lines are closest. *)
Definition closest_on_a (ea0 ea1 eb0 eb1 : Vector3d) : double :=
  let normal := cross (sub ea1 ea0) (sub eb1 eb0) in
  dot (sub eb0 ea0) (cross (sub eb1 eb0) normal) / squaredNorm normal.

Definition closest_on_b (ea0 ea1 eb0 eb1 : Vector3d) : double :=
  let normal := cross (sub ea1 ea0) (sub eb1 eb0) in
  - (dot (sub eb0 ea0) (cross normal (sub ea1 ea0)) / squaredNorm normal).

End distance.

(** ** Eigen containers *)

Module Eigen.

(** A dense matrix: its extent and its coefficients. *)
Record MatrixXd : Type :=
  { rows : nat; cols : nat; coeff : nat → nat → double }.

(** A matrix of vertex indices ([Eigen::MatrixXi]). *)
Record MatrixXi : Type :=
  { irows : nat; icols : nat; icoeff : nat → nat → nat }.

Definition size (V : MatrixXd) : nat := (rows V * cols V)%nat.

Abbreviation VectorXd := (list double) (only parsing).

(** [V.row(i)] *)
Definition row (V : MatrixXd) (i : nat) : VectorXd :=
  map (coeff V i) (seq 0 (cols V)).

(** [VectorXd::Zero(n)] *)
Definition Zero (n : nat) : VectorXd := replicate n 0.

(** [a += b] on dense vectors of one size. *)
Definition vadd (a b : VectorXd) : VectorXd := zip_with Qplus a b.

(** A sparse vector: its size and its stored entries; the coefficient at
    an index is the sum of the entries stored for it. *)
Record SparseVector : Type :=
  { sv_size : nat; sv_entries : list (nat * double) }.

Definition sv_coeff (v : SparseVector) (i : nat) : double :=
  foldr (λ e acc, if (e.1 =? i)%nat then e.2 + acc else acc) 0 (sv_entries v).

(** [v.coeffRef(i) += x] *)
Definition sv_add_at (v : SparseVector) (i : nat) (x : double) : SparseVector :=
  {| sv_size := sv_size v; sv_entries := (i, x) :: sv_entries v |}.

(** [Eigen::Triplet<double>]: row, column, value. *)
Record Triplet : Type := triplet { t_row : nat; t_col : nat; t_value : double }.

(** A sparse matrix: its extent and its entries; the coefficient at a
    position is the sum of the entries stored for it (which is how
    [setFromTriplets] and [+=] combine duplicates). *)
Record SparseMatrix : Type :=
  { sm_rows : nat; sm_cols : nat; sm_triplets : list Triplet }.

Definition sm_coeff (M : SparseMatrix) (i j : nat) : double :=
  foldr (λ t acc,
           if ((t_row t =? i) && (t_col t =? j))%nat then t_value t + acc
           else acc)
        0 (sm_triplets M).

(** [Eigen::SparseMatrix<double>(r, c)]: no entry stored. *)
Definition sm_empty (r c : nat) : SparseMatrix :=
  {| sm_rows := r; sm_cols := c; sm_triplets := [] |}.

(** [M.setFromTriplets(begin, end)] on a fresh [r x c] matrix. *)
Definition setFromTriplets (r c : nat) (ts : list Triplet) : SparseMatrix :=
  {| sm_rows := r; sm_cols := c; sm_triplets := ts |}.

(** [A += B] *)
Definition sm_add (A B : SparseMatrix) : SparseMatrix :=
  {| sm_rows := sm_rows A; sm_cols := sm_cols A;
     sm_triplets := sm_triplets A ++ sm_triplets B |}.

(** [u * v.transpose()] for sparse vectors: the outer product. *)
Definition outer (u v : SparseVector) : SparseMatrix :=
  {| sm_rows := sv_size u; sm_cols := sv_size v;
     sm_triplets :=
       a ← sv_entries u; b ← sv_entries v; [triplet a.1 b.1 (a.2 * b.2)] |}.

End Eigen.

(** ** tbb: parallel_for over thread-local storage *)

Module tbb.

Record blocked_range : Type := { r_begin : nat; r_end : nat }.

(** The indices [r.begin() <= i < r.end()], in increasing order. *)
Definition indices (r : blocked_range) : list nat :=
  seq (r_begin r) (r_end r - r_begin r).

(** A work item: a subrange and the worker thread that runs the body on it.
    A schedule lists the work items of one [parallel_for]; a worker only
    touches its own slot of the storage, so the order of the list is the
    order in which each worker meets its items. *)
Record task : Type := { worker : nat; range : blocked_range }.

(** The subranges handed out by [parallel_for] split the whole range: every
    index is met exactly once. *)
Definition covers (sched : list task) (first last : nat) : Prop :=
  Permutation (sched ≫= (λ t, indices (range t))) (seq first (last - first)).

(** One worker for the whole range. *)
Definition single_worker (first last : nat) : list task :=
  [ {| worker := 0; range := {| r_begin := first; r_end := last |} |} ].

Section enumerable_thread_specific.
Context {T : Type}.
(** The value a slot is created with. *)
Variable init : T.

(** [storage.local()] as seen by worker [w]. *)
Definition local (storage : gmap nat T) (w : nat) : T :=
  default init (storage !! w).

(** The body receives the subrange and the worker's slot. *)
Definition run_task (body : blocked_range → T → T)
    (storage : gmap nat T) (t : task) : gmap nat T :=
  <[worker t := body (range t) (local storage (worker t))]> storage.

Definition parallel_for (sched : list task)
    (body : blocked_range → T → T) : gmap nat T :=
  foldl (run_task body) ∅ sched.
End enumerable_thread_specific.

(** [for (const auto& local : storage) acc = op(acc, local);] *)
Definition merge {T U} (op : U → T → U) (acc : U) (storage : gmap nat T) : U :=
  map_fold (λ _ local acc, op acc local) acc storage.

(** [for (size_t i = r.begin(); i < r.end(); i++) acc = step(i, acc);] *)
Definition for_range {T} (r : blocked_range) (step : nat → T → T) (acc : T) : T :=
  foldl (λ acc i, step i acc) acc (indices r).

End tbb.

(** ** ipc.cpp *)

Module ipc.
Import Eigen.

(** [container.empty()] *)
Definition empty {A} (l : list A) : bool :=
  match l with [] => true | _ :: _ => false end.

(** What [ipc.cpp] reads of a [CollisionMesh]. *)
Record CollisionMesh : Type :=
  { num_vertices : nat;
    edges : MatrixXi;
    faces : MatrixXi;
    can_collide : nat → nat → bool }.

Abbreviation VectorMax12d := (list double) (only parsing).

(** The members of a [CollisionConstraint] that [ipc.cpp] uses.  The class
    is declared outside the sources at hand, so a constraint is given by
    its data members and its methods. *)
Record CollisionConstraint : Type :=
  { weight : double;
    weight_gradient : SparseVector;
    vertex_indices : MatrixXi → MatrixXi → list nat;
    compute_distance : MatrixXd → MatrixXi → MatrixXi → double;
    compute_potential : MatrixXd → MatrixXi → MatrixXi → double → double;
    compute_potential_gradient :
      MatrixXd → MatrixXi → MatrixXi → double → VectorMax12d;
    compute_potential_hessian :
      MatrixXd → MatrixXi → MatrixXi → double → bool → MatrixXd }.

(** [Constraints]: [size()], [empty()] and [operator[]] over all stored
    constraints. *)
Abbreviation Constraints := (list CollisionConstraint) (only parsing).

(** A continuous collision candidate, given by its [ccd] method:
    [ccd V0 V1 E F toi tmax tolerance max_iterations] is the returned flag
    and the content of [toi] after the call. *)
Record Candidate : Type :=
  { ccd : MatrixXd → MatrixXd → MatrixXi → MatrixXi →
          double_inf → double_inf → double → Z → bool * double_inf }.

Abbreviation Candidates := (list Candidate) (only parsing).

Record EdgeEdgeCandidate : Type := { edge0_index : nat; edge1_index : nat }.
Record EdgeFaceCandidate : Type := { edge_index : nat; face_index : nat }.

(** The collaborators of [has_intersections] that live outside the
    sources at hand: the bounding-box diagonal, the broad phase (made for
    a method, given the mesh's collision filter, built on [V], [E], [F]
    with an inflation radius) and the two exact predicates. *)
Class Collaborators : Type :=
  { BroadPhaseMethod : Type;
    world_bbox_diagonal_length : MatrixXd → double;
    detect_edge_edge_candidates :
      BroadPhaseMethod → (nat → nat → bool) → MatrixXd → MatrixXi → MatrixXi →
      double → list EdgeEdgeCandidate;
    detect_edge_face_candidates :
      BroadPhaseMethod → (nat → nat → bool) → MatrixXd → MatrixXi → MatrixXi →
      double → list EdgeFaceCandidate;
    segment_segment_intersect :
      VectorXd → VectorXd → VectorXd → VectorXd → bool;
    is_edge_intersecting_triangle :
      VectorXd → VectorXd → VectorXd → VectorXd → VectorXd → bool }.

(** *** Local to global scatter *)

(** The local index [i] of every entry of [ids], paired with the entry. *)
Definition enumerate (ids : list nat) : list (nat * nat) := imap pair ids.

(** Modelled from the spec: [local_gradient_to_global_gradient] of
    [ipc/utils/local_to_global.hpp], which is not among the sources.  The
    block of size [dim] of local vertex [i] is added (never written over)
    at the global offset [ids[i] * dim]; local vertices follow the order of
    [ids]. *)
Definition local_gradient_to_global_gradient (local_grad : VectorMax12d)
    (ids : list nat) (dim : nat) (grad : VectorXd) : VectorXd :=
  foldl (λ grad p,
           foldl (λ grad d,
                    alter (λ x, x + nth (dim * p.1 + d)%nat local_grad 0)
                          (dim * p.2 + d)%nat grad)
                 grad (seq 0 dim))
        grad (enumerate ids).

(** Modelled from the spec: the same scatter into a sparse vector. *)
Definition local_gradient_to_global_gradient_sparse (local_grad : VectorMax12d)
    (ids : list nat) (dim : nat) (grad : SparseVector) : SparseVector :=
  foldl (λ grad p,
           foldl (λ grad d,
                    sv_add_at grad (dim * p.2 + d)%nat
                              (nth (dim * p.1 + d)%nat local_grad 0))
                 grad (seq 0 dim))
        grad (enumerate ids).

(** Modelled from the spec: [local_hessian_to_global_triplets] of the same
    header.  Every coefficient of the local Hessian is appended as a
    triplet at the global position of its pair of blocks. *)
Definition local_hessian_to_global_triplets (local_hessian : MatrixXd)
    (ids : list nat) (dim : nat) (triplets : list Triplet) : list Triplet :=
  triplets ++
  (pi ← enumerate ids; pj ← enumerate ids;
   k ← seq 0 dim; l ← seq 0 dim;
   [triplet (dim * pi.2 + k)%nat (dim * pj.2 + l)%nat
            (coeff local_hessian (dim * pi.1 + k)%nat (dim * pj.1 + l)%nat)]).

(** *** Barrier potential, gradient and Hessian *)

(** The body of the loops over [constraint_set[i]]: [step] is applied to
    the constraint at index [i]; an index outside the set, which no range
    of a schedule that covers the set contains, leaves [acc] as it is. *)
Definition at_index {A T} (l : list A) (step : A → T → T) (i : nat) (acc : T) : T :=
  match l !! i with Some c => step c acc | None => acc end.

Definition compute_barrier_potential (sched : list tbb.task)
    (mesh : CollisionMesh) (V : MatrixXd) (constraint_set : Constraints)
    (dhat : double) : run double :=
  assert (rows V =? num_vertices mesh)%nat;;
  if empty constraint_set then mret 0
  else
    let E := edges mesh in
    let F := faces mesh in
    emit (ParallelFor 0 (length constraint_set));;
    let storage :=
      tbb.parallel_for 0 sched (λ r local_potential,
        tbb.for_range r (at_index constraint_set (λ c local_potential,
          local_potential + compute_potential c V E F dhat)) local_potential) in
    mret (tbb.merge (λ potential local_potential, potential + local_potential)
                    0 storage).

(** The sum the spec gives for the potential: over the constraints, in
    order, of each constraint's local barrier contribution. *)
Definition sequential_barrier_potential (mesh : CollisionMesh) (V : MatrixXd)
    (constraint_set : Constraints) (dhat : double) : double :=
  foldr (λ c acc, compute_potential c V (edges mesh) (faces mesh) dhat + acc)
        0 constraint_set.

Definition compute_barrier_potential_gradient (sched : list tbb.task)
    (mesh : CollisionMesh) (V : MatrixXd) (constraint_set : Constraints)
    (dhat : double) : run VectorXd :=
  assert (rows V =? num_vertices mesh)%nat;;
  if empty constraint_set then mret (Zero (size V))
  else
    let E := edges mesh in
    let F := faces mesh in
    let dim := cols V in
    emit (ParallelFor 0 (length constraint_set));;
    let storage :=
      tbb.parallel_for (Zero (size V)) sched (λ r local_grad,
        tbb.for_range r (at_index constraint_set (λ c local_grad,
          local_gradient_to_global_gradient
            (compute_potential_gradient c V E F dhat)
            (vertex_indices c E F) dim local_grad)) local_grad) in
    mret (tbb.merge (λ grad local_grad, vadd grad local_grad)
                    (Zero (size V)) storage).

Definition compute_barrier_potential_hessian (sched : list tbb.task)
    (mesh : CollisionMesh) (V : MatrixXd) (constraint_set : Constraints)
    (dhat : double) (project_hessian_to_psd : bool) : run SparseMatrix :=
  assert (rows V =? num_vertices mesh)%nat;;
  if empty constraint_set then mret (sm_empty (size V) (size V))
  else
    let E := edges mesh in
    let F := faces mesh in
    let dim := cols V in
    emit (ParallelFor 0 (length constraint_set));;
    let storage :=
      tbb.parallel_for [] sched (λ r local_hess_triplets,
        tbb.for_range r (at_index constraint_set (λ c local_hess_triplets,
          local_hessian_to_global_triplets
            (compute_potential_hessian c V E F dhat project_hessian_to_psd)
            (vertex_indices c E F) dim local_hess_triplets))
          local_hess_triplets) in
    mret (tbb.merge (λ hess local_hess_triplets,
                       sm_add hess
                         (setFromTriplets (size V) (size V) local_hess_triplets))
                    (sm_empty (size V) (size V)) storage).

(** The loop of [compute_barrier_shape_derivative] over the constraints
    that are left, [shape_derivative] being the matrix built so far. *)
Fixpoint shape_derivative_loop (mesh : CollisionMesh) (V : MatrixXd)
    (dhat : double) (constraints : Constraints) (shape_derivative : SparseMatrix)
    : run SparseMatrix :=
  match constraints with
  | [] => mret shape_derivative
  | constraint :: constraints =>
      assert (sv_size (weight_gradient constraint) =? size V)%nat;;
      let local_barrier_grad :=
        compute_potential_gradient constraint V (edges mesh) (faces mesh) dhat in
      assert (negb (Qeq_bool (weight constraint) 0));;
      let local_barrier_grad :=
        map (λ x, x / weight constraint) local_barrier_grad in
      let barrier_grad :=
        local_gradient_to_global_gradient_sparse local_barrier_grad
          (vertex_indices constraint (edges mesh) (faces mesh)) (cols V)
          {| sv_size := size V; sv_entries := [] |} in
      shape_derivative_loop mesh V dhat constraints
        (sm_add shape_derivative
                (outer barrier_grad (weight_gradient constraint)))
  end.

(** The constraint's gradient, divided by the constraint's weight and
    scattered to the global degrees of freedom. *)
Definition scattered_gradient_over_weight (mesh : CollisionMesh) (V : MatrixXd)
    (dhat : double) (constraint : CollisionConstraint) : SparseVector :=
  local_gradient_to_global_gradient_sparse
    (map (λ x, x / weight constraint)
         (compute_potential_gradient constraint V (edges mesh) (faces mesh) dhat))
    (vertex_indices constraint (edges mesh) (faces mesh)) (cols V)
    {| sv_size := size V; sv_entries := [] |}.

(** The sum over the constraints of the outer products of that vector
    with the constraint's weight gradient, at position [(i, j)]. *)
Definition outer_product_sum (mesh : CollisionMesh) (V : MatrixXd)
    (dhat : double) (constraint_set : Constraints) (i j : nat) : double :=
  foldr (λ c acc,
           sv_coeff (scattered_gradient_over_weight mesh V dhat c) i
           * sv_coeff (weight_gradient c) j + acc)
        0 constraint_set.

Definition compute_barrier_shape_derivative (sched : list tbb.task)
    (mesh : CollisionMesh) (V : MatrixXd) (constraint_set : Constraints)
    (dhat : double) : run SparseMatrix :=
  shape_derivative ←
    compute_barrier_potential_hessian sched mesh V constraint_set dhat false;
  shape_derivative_loop mesh V dhat constraint_set shape_derivative.

(** *** Collision-free step size *)

(** With [IPC_EARLIEST_TOI_USE_MUTEX] defined, the workers share one
    [earliest_toi].  A candidate takes two steps: the call of its [ccd],
    which reads [earliest_toi] for [tmax], and, under the mutex, the update
    of [earliest_toi].  A schedule lists these steps in the order in which
    they take effect.  A worker commits a candidate before it calls its
    next one; the schedules here put no such bound on the calls in flight,
    so they include every run of the workers. *)
Inductive toi_step : Type :=
  | Call (i : nat)
  | Commit (i : nat).

(** The shared bound, and for every call that has started and has not yet
    committed the value of [tmax] it was given. *)
Record toi_state : Type :=
  { earliest_toi : double_inf;
    in_flight : gmap nat double_inf }.

Section narrow_phase.
Variable candidates : Candidates.
Variables V0 V1 : MatrixXd.
Variables E F : MatrixXi.
Variable tolerance : double.
Variable max_iterations : Z.

(** [double toi = infinity; bool are_colliding = candidates[i].ccd(...)] *)
Definition candidate_ccd (c : Candidate) (tmax : double_inf) : bool * double_inf :=
  let toi := Infinity in
  ccd c V0 V1 E F toi tmax tolerance max_iterations.

(** The guarded update [if (toi < earliest_toi) earliest_toi = toi;] after
    a call that returned [r]. *)
Definition commit (r : bool * double_inf) (earliest_toi : double_inf)
    : double_inf :=
  let '(are_colliding, toi) := r in
  if are_colliding && dlt toi earliest_toi then toi else earliest_toi.

Definition narrow_phase_step (st : toi_state) (s : toi_step) : toi_state :=
  match s with
  | Call i =>
      match candidates !! i with
      | Some _ =>
          {| earliest_toi := earliest_toi st;
             in_flight := <[i := earliest_toi st]> (in_flight st) |}
      | None => st
      end
  | Commit i =>
      match candidates !! i, in_flight st !! i with
      | Some c, Some tmax =>
          {| earliest_toi := commit (candidate_ccd c tmax) (earliest_toi st);
             in_flight := delete i (in_flight st) |}
      | _, _ => st
      end
  end.

Definition narrow_phase (sched : list toi_step) : toi_state :=
  foldl narrow_phase_step
        {| earliest_toi := Fin 1; in_flight := ∅ |} sched.

(** What a candidate contributes to the minimum when its call returned
    [r]: the reported time of impact if there is one before the end of
    the step, and the full step [1] if not. *)
Definition candidate_toi (r : bool * double_inf) : double_inf :=
  commit r (Fin 1).
End narrow_phase.

(** A call that uses [tmax] only to bound its search: the candidate has at
    most one time of impact, which the call reports exactly when it is
    within [tmax]. *)
Definition searches_up_to_tmax (call : double_inf → bool * double_inf)
    (impact : option double) : Prop :=
  ∀ tmax,
    match impact with
    | Some t =>
        if dle (Fin t) tmax then call tmax = (true, Fin t)
        else (call tmax).1 = false
    | None => (call tmax).1 = false
    end.

(** Every candidate below [n] is called once and committed once, after
    its call; [pending] are the candidates not yet called, [running] those
    called and not yet committed. *)
Fixpoint well_formed_from (pending running : gset nat) (sched : list toi_step)
    : bool :=
  match sched with
  | [] => bool_decide (pending = ∅) && bool_decide (running = ∅)
  | Call i :: sched =>
      bool_decide (i ∈ pending)
      && well_formed_from (pending ∖ {[i]}) ({[i]} ∪ running) sched
  | Commit i :: sched =>
      bool_decide (i ∈ running)
      && well_formed_from pending (running ∖ {[i]}) sched
  end.

Definition well_formed (n : nat) (sched : list toi_step) : bool :=
  well_formed_from (list_to_set (seq 0 n)) ∅ sched.

(** One worker: the candidates in order, each committed before the next
    is called. *)
Definition sequential (n : nat) : list toi_step :=
  i ← seq 0 n; [Call i; Commit i].

Definition compute_collision_free_stepsize (sched : list toi_step)
    (candidates : Candidates) (mesh : CollisionMesh) (V0 V1 : MatrixXd)
    (tolerance : double) (max_iterations : Z) : run double_inf :=
  assert (rows V0 =? num_vertices mesh)%nat;;
  assert (rows V1 =? num_vertices mesh)%nat;;
  let E := edges mesh in
  let F := faces mesh in
  if empty candidates then mret (Fin 1)
  else
    emit (ParallelFor 0 (length candidates));;
    let earliest_toi :=
      earliest_toi
        (narrow_phase candidates V0 V1 E F tolerance max_iterations sched) in
    assert (dle (Fin 0) earliest_toi && dle earliest_toi (Fin 1));;
    mret earliest_toi.

(** *** Minimum distance *)

Definition compute_minimum_distance (sched : list tbb.task)
    (mesh : CollisionMesh) (V : MatrixXd) (constraint_set : Constraints)
    : run double_inf :=
  assert (rows V =? num_vertices mesh)%nat;;
  if empty constraint_set then mret Infinity
  else
    let E := edges mesh in
    let F := faces mesh in
    emit (ParallelFor 0 (length constraint_set));;
    let storage :=
      tbb.parallel_for Infinity sched (λ r local_min_dist,
        tbb.for_range r (at_index constraint_set (λ c local_min_dist,
          let dist := Fin (compute_distance c V E F) in
          if dlt dist local_min_dist then dist else local_min_dist))
          local_min_dist) in
    mret (tbb.merge (λ min_dist local_min_dist, std_min min_dist local_min_dist)
                    Infinity storage).

(** *** Self-intersection *)

(** The two narrow-phase loops: every candidate met is tested, and the
    first confirmed intersection ends the loop. *)
Fixpoint any_intersecting {C} (test : C → bool) (tag : C → event)
    (candidates : list C) : run bool :=
  match candidates with
  | [] => mret false
  | c :: candidates =>
      emit (tag c);;
      if test c then mret true else any_intersecting test tag candidates
  end.

(** What a loop that stops at the first confirmed intersection leaves
    behind: either the candidates before some intersecting candidate [c]
    test negative and the tests made are those up to [c], or all
    candidates test negative and all have been tested. *)
Definition stops_at_first_hit {C} (test : C → bool) (tag : C → event)
    (candidates : list C) (r : run bool) : Prop :=
  (∃ before c after,
     candidates = before ++ c :: after
     ∧ (∀ x, x ∈ before → test x = false)
     ∧ test c = true
     ∧ r = Returns true (tag <$> before ++ [c]))
  ∨ ((∀ x, x ∈ candidates → test x = false)
     ∧ r = Returns false (tag <$> candidates)).

Section has_intersections.
Context {collaborators : Collaborators}.

Definition edges_intersect (V : MatrixXd) (E : MatrixXi)
    (ee_candidate : EdgeEdgeCandidate) : bool :=
  segment_segment_intersect
    (take 2 (row V (icoeff E (edge0_index ee_candidate) 0)))
    (take 2 (row V (icoeff E (edge0_index ee_candidate) 1)))
    (take 2 (row V (icoeff E (edge1_index ee_candidate) 0)))
    (take 2 (row V (icoeff E (edge1_index ee_candidate) 1))).

Definition edge_intersects_face (V : MatrixXd) (E F : MatrixXi)
    (ef_candidate : EdgeFaceCandidate) : bool :=
  is_edge_intersecting_triangle
    (row V (icoeff E (edge_index ef_candidate) 0))
    (row V (icoeff E (edge_index ef_candidate) 1))
    (row V (icoeff F (face_index ef_candidate) 0))
    (row V (icoeff F (face_index ef_candidate) 1))
    (row V (icoeff F (face_index ef_candidate) 2)).

Definition conservative_inflation_radius (V : MatrixXd) : double :=
  double_1e_2 * world_bbox_diagonal_length V.

Definition has_intersections (mesh : CollisionMesh) (V : MatrixXd)
    (method : BroadPhaseMethod) : run bool :=
  assert (rows V =? num_vertices mesh)%nat;;
  let E := edges mesh in
  let F := faces mesh in
  if (cols V =? 2)%nat then
    let ee_candidates :=
      detect_edge_edge_candidates method (can_collide mesh) V E F
        (conservative_inflation_radius V) in
    any_intersecting (edges_intersect V E)
      (λ c, ExactTest (edge0_index c) (edge1_index c)) ee_candidates
  else
    assert (cols V =? 3)%nat;;
    let ef_candidates :=
      detect_edge_face_candidates method (can_collide mesh) V E F
        (conservative_inflation_radius V) in
    any_intersecting (edge_intersects_face V E F)
      (λ c, ExactTest (edge_index c) (face_index c)) ef_candidates.
End has_intersections.

End ipc.

(** ** Concrete inputs *)

Module examples.
Import Eigen ipc.

(** An oracle whose second query finds an impact, and one whose second
    query finds none. *)
Definition retry_hits : ccd.Oracle :=
  λ _ no_zero_toi _, if no_zero_toi then (true, 1 # 2000000) else (true, 0).

Definition retry_misses : ccd.Oracle :=
  λ _ no_zero_toi _, if no_zero_toi then (false, 1 # 2) else (true, 0).

Definition no_indices : MatrixXi :=
  {| irows := 0; icols := 2; icoeff := λ _ _, 0%nat |}.

Definition two_vertices : CollisionMesh :=
  {| num_vertices := 2; edges := no_indices; faces := no_indices;
     can_collide := λ _ _, true |}.

Definition V_2d : MatrixXd :=
  {| rows := 2; cols := 2; coeff := λ i j, inject_Z (Z.of_nat (i + 2 * j)) |}.

Definition V_3d : MatrixXd :=
  {| rows := 2; cols := 3; coeff := λ i j, inject_Z (Z.of_nat (i + 2 * j)) |}.

(** A constraint between the two vertices with constant weight, potential
    and distance. *)
Definition constraint_of (w potential dist : double) : CollisionConstraint :=
  {| weight := w;
     weight_gradient := {| sv_size := 4; sv_entries := [(0%nat, 1); (3%nat, 2)] |};
     vertex_indices := λ _ _, [0%nat; 1%nat];
     compute_distance := λ _ _ _, dist;
     compute_potential := λ _ _ _ _, potential;
     compute_potential_gradient := λ _ _ _ _, [1; 2; 3; 4];
     compute_potential_hessian := λ _ _ _ _ _,
       {| rows := 4; cols := 4; coeff := λ i j, if (i =? j)%nat then 1 else 0 |} |}.

Definition three_constraints : list CollisionConstraint :=
  [constraint_of 1 1 5; constraint_of 2 (1 # 2) 3; constraint_of 4 3 4].

(** Two workers: worker 1 takes [[1, 3)] before worker 0 takes [[0, 1)]. *)
Definition two_workers : list tbb.task :=
  [ {| tbb.worker := 1; tbb.range := {| tbb.r_begin := 1; tbb.r_end := 3 |} |};
    {| tbb.worker := 0; tbb.range := {| tbb.r_begin := 0; tbb.r_end := 1 |} |} ].

(** A candidate with an impact at time [t], found when [t] is within
    [tmax], and a candidate that never reports an impact. *)
Definition impact_at (t : double) : Candidate :=
  {| ccd := λ _ _ _ _ toi tmax _ _,
       if dle (Fin t) tmax then (true, Fin t) else (false, toi) |}.

Definition no_impact : Candidate :=
  {| ccd := λ _ _ _ _ toi _ _ _, (false, toi) |}.

Definition three_candidates : list Candidate :=
  [impact_at (1 # 2); no_impact; impact_at (1 # 3)].

(** Candidates 0 and 2 are called before either commits. *)
Definition interleaved : list toi_step :=
  [Call 0; Call 2; Commit 2; Call 1; Commit 0; Commit 1]%nat.

(** Stand-ins for the collaborators of [has_intersections]: the broad phase
    proposes three pairs, and the pairs said to intersect are those of two
    distinct primitives with the same first coordinate. *)
Definition toy_collaborators : Collaborators :=
  {| BroadPhaseMethod := unit;
     world_bbox_diagonal_length := λ _, 3;
     detect_edge_edge_candidates := λ _ _ _ _ _ _,
       [ {| edge0_index := 0; edge1_index := 1 |};
         {| edge0_index := 1; edge1_index := 1 |};
         {| edge0_index := 0; edge1_index := 0 |} ];
     detect_edge_face_candidates := λ _ _ _ _ _ _,
       [ {| edge_index := 0; face_index := 0 |} ];
     segment_segment_intersect := λ a0 _ b0 _,
       Qeq_bool (nth 0 a0 0) (nth 0 b0 0);
     is_edge_intersecting_triangle := λ _ _ _ _ _, false |}.

Definition edge_list : MatrixXi :=
  {| irows := 2; icols := 2; icoeff := λ i j, if (i =? j)%nat then 1%nat else 0%nat |}.

Definition two_edges : CollisionMesh :=
  {| num_vertices := 2; edges := edge_list; faces := no_indices;
     can_collide := λ _ _, true |}.

(** A triangle in the plane [z = 0] with an edge along one of its sides
    and an edge through its inside. *)
Definition V_pierced : MatrixXd :=
  {| rows := 5; cols := 3;
     coeff := λ i j,
       nth j (nth i [ [0; 0; 0]; [2; 0; 0]; [0; 2; 0];
                      [1 # 2; 1 # 2; - (1)]; [1 # 2; 1 # 2; 1] ] []) 0 |}.

Definition pierced_edges : MatrixXi :=
  {| irows := 2; icols := 2;
     icoeff := λ i j, nth j (nth i [ [0; 1]; [3; 4] ]%nat []) 0%nat |}.

Definition pierced_faces : MatrixXi :=
  {| irows := 1; icols := 3;
     icoeff := λ i j, nth j (nth i [ [0; 1; 2] ]%nat []) 0%nat |}.

Definition pierced_triangle : CollisionMesh :=
  {| num_vertices := 5; edges := pierced_edges; faces := pierced_faces;
     can_collide := λ _ _, true |}.

(** Stand-ins for the collaborators in 3D: the broad phase proposes the
    side, the piercing edge and the side again; for a face in the plane
    [z = 0], an edge is said to intersect it when its end points lie
    strictly on opposite sides of that plane. *)
Definition plane_collaborators : Collaborators :=
  {| BroadPhaseMethod := unit;
     world_bbox_diagonal_length := λ _, 3;
     detect_edge_edge_candidates := λ _ _ _ _ _ _, [];
     detect_edge_face_candidates := λ _ _ _ _ _ _,
       [ {| edge_index := 0; face_index := 0 |};
         {| edge_index := 1; face_index := 0 |};
         {| edge_index := 0; face_index := 0 |} ];
     segment_segment_intersect := λ _ _ _ _, false;
     is_edge_intersecting_triangle := λ e0 e1 _ _ _,
       Qltb (nth 2 e0 0 * nth 2 e1 0) 0 |}.

(** Two skew lines at distance one, and two parallel lines. *)
Definition origin : distance.Vector3d := distance.vec3 0 0 0.
Definition e_x : distance.Vector3d := distance.vec3 1 0 0.
Definition above : distance.Vector3d := distance.vec3 0 0 1.
Definition above_y : distance.Vector3d := distance.vec3 0 1 1.
Definition above_x : distance.Vector3d := distance.vec3 2 0 1.

End examples.

(** ** ccd.cpp: to_3D *)

Module ccd_2d.

Record Vector2d : Type := vec2 { v2x : double; v2y : double }.

Definition to_3D (v : Vector2d) : distance.Vector3d :=
  distance.vec3 (v2x v) (v2y v) 0.

(** The squared distance of two points of the plane, and the cross product
    of the directions of two lines of the plane. *)
Definition squared_distance_2d (a b : Vector2d) : double :=
  (v2x a - v2x b) * (v2x a - v2x b) + (v2y a - v2y b) * (v2y a - v2y b).

Definition cross_2d (a0 a1 b0 b1 : Vector2d) : double :=
  (v2x a1 - v2x a0) * (v2y b1 - v2y b0) - (v2y a1 - v2y a0) * (v2x b1 - v2x b0).

End ccd_2d.

(** Two results of a division hold the same number, or both hold none. *)
Definition opt_eq (a b : option double) : Prop :=
  match a, b with
  | Some x, Some y => x == y
  | None, None => True
  | _, _ => False
  end.

(** ** ipc.cpp: is_step_collision_free and the broad-phase overloads *)

Module ipc_step.
Import Eigen ipc.

(** The narrow-phase loop of [is_step_collision_free], from index [i] on.
    [double toi;] is declared without a value in the loop body: what it
    holds when candidate [i] is called is [garbage i]. *)
Fixpoint collision_free_from (garbage : nat → double_inf) (V0 V1 : MatrixXd)
    (E F : MatrixXi) (tolerance : double) (max_iterations : Z) (i : nat)
    (candidates : Candidates) : bool :=
  match candidates with
  | [] => true
  | c :: candidates =>
      let toi := garbage i in
      let '(is_collision, _) :=
        ccd c V0 V1 E F toi (Fin 1) tolerance max_iterations in
      if is_collision then false
      else collision_free_from garbage V0 V1 E F tolerance max_iterations
             (S i) candidates
  end.

(** [is_step_collision_free] on given candidates. *)
Definition is_step_collision_free (garbage : nat → double_inf)
    (candidates : Candidates) (mesh : CollisionMesh) (V0 V1 : MatrixXd)
    (tolerance : double) (max_iterations : Z) : run bool :=
  assert (rows V0 =? num_vertices mesh)%nat;;
  assert (rows V1 =? num_vertices mesh)%nat;;
  let E := edges mesh in
  let F := faces mesh in
  mret (collision_free_from garbage V0 V1 E F tolerance max_iterations 0
          candidates).

Section broad_phase.
Context {collaborators : Collaborators}.

(** [construct_collision_candidates], which lives outside the sources at
    hand: the candidates the broad phase of [method] proposes for the step
    from [V0] to [V1] with an inflation radius. *)
Variable construct_collision_candidates :
  CollisionMesh → MatrixXd → MatrixXd → double → BroadPhaseMethod → Candidates.

(** [is_step_collision_free] with its own broad phase. *)
Definition is_step_collision_free_broad_phase (garbage : nat → double_inf)
    (mesh : CollisionMesh) (V0 V1 : MatrixXd) (method : BroadPhaseMethod)
    (tolerance : double) (max_iterations : Z) : run bool :=
  assert (rows V0 =? num_vertices mesh)%nat;;
  assert (rows V1 =? num_vertices mesh)%nat;;
  let candidates := construct_collision_candidates mesh V0 V1 0 method in
  is_step_collision_free garbage candidates mesh V0 V1 tolerance max_iterations.

(** [compute_collision_free_stepsize] with its own broad phase, in a build
    without [IPC_TOOLKIT_WITH_CUDA]. *)
Definition compute_collision_free_stepsize_broad_phase (sched : list toi_step)
    (mesh : CollisionMesh) (V0 V1 : MatrixXd) (method : BroadPhaseMethod)
    (tolerance : double) (max_iterations : Z) : run double_inf :=
  assert (rows V0 =? num_vertices mesh)%nat;;
  assert (rows V1 =? num_vertices mesh)%nat;;
  let candidates := construct_collision_candidates mesh V0 V1 0 method in
  step_size ←
    compute_collision_free_stepsize sched candidates mesh V0 V1 tolerance
      max_iterations;
  mret step_size.
End broad_phase.

End ipc_step.

(** ** More concrete inputs *)

Module more_examples.
Import Eigen ipc examples.

(** An oracle that reports an impact at time zero whatever it is asked,
    and one whose impact is exactly at the threshold. *)
Definition always_zero : ccd.Oracle := λ _ _ _, (true, 0).

Definition impact_at_threshold : ccd.Oracle := λ _ _ _, (true, ccd.SMALL_TOI).

(** What the uninitialised [toi] holds before the call of candidate [i]. *)
Definition some_garbage : nat → double_inf :=
  λ i, Fin (inject_Z (Z.of_nat i)).

(** A candidate set with an impact exactly at the end of the step. *)
Definition impact_at_the_end : list Candidate := [no_impact; impact_at 1].

(** A broad phase that proposes two candidates without impact. *)
Definition two_without_impact :
    CollisionMesh → MatrixXd → MatrixXd → double → unit → list Candidate :=
  λ _ _ _ _ _, [no_impact; no_impact].

(** A configuration with one row too many for [two_vertices]. *)
Definition V_three_rows : MatrixXd :=
  {| rows := 3; cols := 2; coeff := λ _ _, 0 |}.

Definition first_constraint : list CollisionConstraint :=
  [constraint_of 1 1 5].

Definition last_two_constraints : list CollisionConstraint :=
  [constraint_of 2 (1 # 2) 3; constraint_of 4 3 4].

End more_examples.

(* ===================================================================== *)
(** * Properties *)

(** ** Numbers *)

Lemma Qltb_lt (x y : double) : Qltb x y = true ↔ x < y.
Proof.
  unfold Qltb. rewrite negb_true_iff, <- not_true_iff_false, Qle_bool_iff.
  split; [apply Qnot_le_lt | apply Qlt_not_le].
Qed.

Lemma Qltb_ge (x y : double) : Qltb x y = false ↔ y <= x.
Proof. unfold Qltb. rewrite negb_false_iff. apply Qle_bool_iff. Qed.

Lemma Qeq_bool_false (x y : double) : Qeq_bool x y = false ↔ ¬ x == y.
Proof. rewrite <- not_true_iff_false, Qeq_bool_iff. tauto. Qed.

(** ** The conservative advancement controller *)

Section ccd_strategy_properties.
Import ccd.
Variable oracle : Oracle.
Variables initial_distance conservative_rescaling toi0 : double.

Let min_distance := (1 - conservative_rescaling) * initial_distance.

(** C3: with an initial distance of exactly zero, [ccd_strategy] returns
    at once: it reports an impact with [toi = 0], never queries the
    oracle, and the only effect is the logged warning (the call returns
    normally, no assertion fails). *)
Theorem ccd_strategy_zero_initial_distance :
  initial_distance == 0 →
  ccd_strategy oracle initial_distance conservative_rescaling toi0
  = Returns (true, 0) [LogWarn warn_zero_distance].
Proof.
  intros Hz. unfold ccd_strategy.
  apply Qeq_bool_iff in Hz. rewrite Hz. reflexivity.
Qed.

(** The margin is below the distance exactly when [r * d] is positive. *)
Lemma min_distance_below :
  0 < initial_distance → 0 < conservative_rescaling →
  Qltb min_distance initial_distance = true.
Proof.
  intros Hd Hr. apply Qltb_lt. subst min_distance.
  assert (0 < conservative_rescaling * initial_distance)
    by (apply Qmult_lt_0_compat; assumption).
  assert ((1 - conservative_rescaling) * initial_distance
          == initial_distance - conservative_rescaling * initial_distance)
    as -> by ring.
  lra.
Qed.

(** C1 (amended): a first impact below [SMALL_TOI] triggers a second
    query with [min_distance = 0] and [no_zero_toi = true]; when that
    query reports an impact too, its TOI is multiplied by the rescaling
    factor and returned together with [true]. *)
Theorem ccd_strategy_small_toi_retry (toi1 toi2 : double) :
  0 < initial_distance →
  0 < conservative_rescaling →
  oracle min_distance false toi0 = (true, toi1) →
  toi1 < SMALL_TOI →
  oracle 0 true toi1 = (true, toi2) →
  ¬ toi2 * conservative_rescaling == 0 →
  ccd_strategy oracle initial_distance conservative_rescaling toi0
  = Returns (true, toi2 * conservative_rescaling)
      [OracleQuery min_distance false; OracleQuery 0 true].
Proof.
  intros Hd Hr H1 Hsmall H2 Hnz. unfold ccd_strategy.
  assert (Qeq_bool initial_distance 0 = false) as ->
    by (apply Qeq_bool_false; lra).
  cbv zeta. fold min_distance.
  rewrite (min_distance_below Hd Hr).
  cbn. rewrite H1. cbn.
  apply Qltb_lt in Hsmall. rewrite Hsmall. cbn. rewrite H2. cbn.
  apply Qeq_bool_false in Hnz. rewrite Hnz. reflexivity.
Qed.

(** X2: when the second query reports no impact, nothing is rescaled; the
    flag returned is still that of the first query, and [toi] holds what
    the second query left in it. *)
Lemma ccd_strategy_small_toi_retry_miss (toi1 toi2 : double) :
  0 < initial_distance →
  0 < conservative_rescaling →
  oracle min_distance false toi0 = (true, toi1) →
  toi1 < SMALL_TOI →
  oracle 0 true toi1 = (false, toi2) →
  ccd_strategy oracle initial_distance conservative_rescaling toi0
  = Returns (true, toi2)
      [OracleQuery min_distance false; OracleQuery 0 true].
Proof.
  intros Hd Hr H1 Hsmall H2. unfold ccd_strategy.
  assert (Qeq_bool initial_distance 0 = false) as ->
    by (apply Qeq_bool_false; lra).
  cbv zeta. fold min_distance.
  rewrite (min_distance_below Hd Hr).
  cbn. rewrite H1. cbn.
  apply Qltb_lt in Hsmall. rewrite Hsmall. cbn. by rewrite H2.
Qed.

(** X1: a first query without impact, or with an impact that is not below
    [SMALL_TOI], is returned as it is, after that single query. *)
Lemma ccd_strategy_single_query (is_impacting : bool) (toi1 : double) :
  0 < initial_distance →
  0 < conservative_rescaling →
  oracle min_distance false toi0 = (is_impacting, toi1) →
  is_impacting = false ∨ SMALL_TOI <= toi1 →
  ccd_strategy oracle initial_distance conservative_rescaling toi0
  = Returns (is_impacting, toi1) [OracleQuery min_distance false].
Proof.
  intros Hd Hr H1 Hno. unfold ccd_strategy.
  assert (Qeq_bool initial_distance 0 = false) as ->
    by (apply Qeq_bool_false; lra).
  cbv zeta. fold min_distance.
  rewrite (min_distance_below Hd Hr).
  cbn. rewrite H1. cbn.
  destruct Hno as [->|Hge]; [done|].
  apply Qltb_ge in Hge. rewrite Hge. by rewrite andb_false_r.
Qed.

End ccd_strategy_properties.

(** ** Distance between two lines *)

Section vector_algebra.
Import distance.

Lemma sum_squares_zero (a b c : double) :
  a * a + b * b + c * c == 0 → a == 0 ∧ b == 0 ∧ c == 0.
Proof. intros H. repeat split; nra. Qed.

Lemma Qmult_cancel_zero (a x : double) : ¬ a == 0 → a * x == 0 → x == 0.
Proof. intros Ha H. apply Qmult_integral in H. tauto. Qed.

Lemma squaredNorm_nonneg a : 0 <= squaredNorm a.
Proof. destruct a as [x y z]. cbv [squaredNorm dot vx vy vz]. nra. Qed.

Lemma squaredNorm_zero a : squaredNorm a == 0 ↔ veq a (vec3 0 0 0).
Proof.
  destruct a as [x y z]. cbv [squaredNorm dot veq vx vy vz]. split.
  - apply sum_squares_zero.
  - intros (-> & -> & ->). reflexivity.
Qed.

Lemma squaredNorm_scale k a : squaredNorm (scale k a) == k * k * squaredNorm a.
Proof. destruct a. cbv [squaredNorm dot scale vx vy vz]. ring. Qed.

Lemma squaredNorm_veq a b : veq a b → squaredNorm a == squaredNorm b.
Proof.
  destruct a, b. cbv [veq squaredNorm dot vx vy vz].
  intros (-> & -> & ->). reflexivity.
Qed.

(** Lagrange's identity. *)
Lemma lagrange a b :
  squaredNorm a * squaredNorm b - dot a b * dot a b == squaredNorm (cross a b).
Proof. destruct a, b. cbv [squaredNorm dot cross vx vy vz]. ring. Qed.

Lemma parallel_cross_zero u v : parallel u v → veq (cross u v) (vec3 0 0 0).
Proof.
  intros (α & β & Hnz & Hx & Hy & Hz).
  destruct u as [ux uy uz], v as [wx wy wz].
  cbv [veq cross scale vx vy vz] in *.
  assert (α * (uy * wz - uz * wy) == 0)
    by (transitivity ((α * uy) * wz - (α * uz) * wy);
        [ring | rewrite Hy, Hz; ring]).
  assert (α * (uz * wx - ux * wz) == 0)
    by (transitivity ((α * uz) * wx - (α * ux) * wz);
        [ring | rewrite Hx, Hz; ring]).
  assert (α * (ux * wy - uy * wx) == 0)
    by (transitivity ((α * ux) * wy - (α * uy) * wx);
        [ring | rewrite Hx, Hy; ring]).
  assert (β * (uy * wz - uz * wy) == 0)
    by (transitivity (uy * (β * wz) - uz * (β * wy));
        [ring | rewrite <- Hy, <- Hz; ring]).
  assert (β * (uz * wx - ux * wz) == 0)
    by (transitivity (uz * (β * wx) - ux * (β * wz));
        [ring | rewrite <- Hx, <- Hz; ring]).
  assert (β * (ux * wy - uy * wx) == 0)
    by (transitivity (ux * (β * wy) - uy * (β * wx));
        [ring | rewrite <- Hx, <- Hy; ring]).
  destruct Hnz; repeat split; eauto using Qmult_cancel_zero.
Qed.

Lemma cross_zero_parallel u v : veq (cross u v) (vec3 0 0 0) → parallel u v.
Proof.
  destruct u as [ux uy uz], v as [wx wy wz].
  cbv [veq cross parallel scale vx vy vz]. intros (Hx & Hy & Hz).
  destruct (Qeq_dec wx 0) as [Zx|Nx];
    [destruct (Qeq_dec wy 0) as [Zy|Ny];
     [destruct (Qeq_dec wz 0) as [Zz|Nz]|]|].
  - exists 0, 1. split; [right; lra|]. repeat split; lra.
  - exists wz, uz. split; [tauto|]. repeat split; lra.
  - exists wy, uy. split; [tauto|]. repeat split; lra.
  - exists wx, ux. split; [tauto|]. repeat split; lra.
Qed.

Variables ea0 ea1 eb0 eb1 : Vector3d.
Let normal := cross (sub ea1 ea0) (sub eb1 eb0).
Let line_to_line := dot (sub eb0 ea0) normal.

Lemma parallel_iff_normal_zero :
  parallel (sub ea1 ea0) (sub eb1 eb0) ↔ squaredNorm normal == 0.
Proof.
  rewrite squaredNorm_zero. split;
    [apply parallel_cross_zero | apply cross_zero_parallel].
Qed.

(** The difference of any two points of the lines has the same component
    along the normal. *)
Lemma difference_along_normal s t :
  dot (sub (point_on_line ea0 ea1 s) (point_on_line eb0 eb1 t)) normal
  == - line_to_line.
Proof.
  subst line_to_line normal. destruct ea0, ea1, eb0, eb1.
  cbv [dot cross sub point_on_line add scale vx vy vz]. ring.
Qed.

Lemma line_line_lower_bound s t :
  0 < squaredNorm normal →
  line_to_line * line_to_line / squaredNorm normal
  <= squared_distance (point_on_line ea0 ea1 s) (point_on_line eb0 eb1 t).
Proof.
  intros Hn. apply Qle_shift_div_r; [done|].
  pose proof (lagrange
    (sub (point_on_line ea0 ea1 s) (point_on_line eb0 eb1 t)) normal) as HL.
  rewrite difference_along_normal in HL.
  pose proof (squaredNorm_nonneg (cross
    (sub (point_on_line ea0 ea1 s) (point_on_line eb0 eb1 t)) normal)).
  unfold squared_distance. lra.
Qed.

(** At the two closest points the difference is a multiple of the normal. *)
Lemma closest_points_difference :
  ¬ squaredNorm normal == 0 →
  veq (sub (point_on_line ea0 ea1 (closest_on_a ea0 ea1 eb0 eb1))
           (point_on_line eb0 eb1 (closest_on_b ea0 ea1 eb0 eb1)))
      (scale (- (line_to_line / squaredNorm normal)) normal).
Proof.
  subst line_to_line normal. destruct ea0, ea1, eb0, eb1.
  cbv [closest_on_a closest_on_b veq squaredNorm dot cross sub
       point_on_line add scale vx vy vz].
  intros Hn. split; [|split]; field; exact Hn.
Qed.

Lemma line_line_attained :
  ¬ squaredNorm normal == 0 →
  squared_distance (point_on_line ea0 ea1 (closest_on_a ea0 ea1 eb0 eb1))
                   (point_on_line eb0 eb1 (closest_on_b ea0 ea1 eb0 eb1))
  == line_to_line * line_to_line / squaredNorm normal.
Proof.
  intros Hn. unfold squared_distance.
  rewrite (squaredNorm_veq _ _ (closest_points_difference Hn)),
    squaredNorm_scale.
  field. exact Hn.
Qed.

(** C9: [line_line_distance] computes
    [((eb0 - ea0) . normal)^2 / ||normal||^2] with [normal] the cross
    product of the two edge directions.  The divisor is zero exactly when
    the edges are parallel, and nothing guards the division: for parallel
    edges the quotient is no number.  For edges that are not parallel the
    result is the squared distance of the two lines: a lower bound of the
    squared distance of any two of their points, attained by two of
    them. *)
Theorem line_line_distance_spec :
  (parallel (sub ea1 ea0) (sub eb1 eb0) ↔ squaredNorm normal == 0)
  ∧ (parallel (sub ea1 ea0) (sub eb1 eb0) →
     line_line_distance ea0 ea1 eb0 eb1 = None)
  ∧ (¬ parallel (sub ea1 ea0) (sub eb1 eb0) →
     line_line_distance ea0 ea1 eb0 eb1
     = Some (line_to_line * line_to_line / squaredNorm normal)
     ∧ (∀ s t,
          line_to_line * line_to_line / squaredNorm normal
          <= squared_distance (point_on_line ea0 ea1 s)
                              (point_on_line eb0 eb1 t))
     ∧ (∃ s t,
          squared_distance (point_on_line ea0 ea1 s)
                           (point_on_line eb0 eb1 t)
          == line_to_line * line_to_line / squaredNorm normal)).
Proof.
  split; [apply parallel_iff_normal_zero|]. split.
  - intros Hp%parallel_iff_normal_zero. unfold line_line_distance, fdiv.
    fold normal. apply Qeq_bool_iff in Hp. by rewrite Hp.
  - intros Hnp. rewrite parallel_iff_normal_zero in Hnp. split; [|split].
    + unfold line_line_distance, fdiv. fold normal line_to_line.
      apply Qeq_bool_false in Hnp. by rewrite Hnp.
    + intros s t. apply line_line_lower_bound.
      pose proof (squaredNorm_nonneg normal). lra.
    + eexists _, _. by apply line_line_attained.
Qed.

End vector_algebra.

(** ** Reductions over thread-local storage *)

Section reduction.
Context {A T : Type} (R : relation T) `{!Equivalence R}.
Context (op : T → T → T) {op_proper : Proper (R ==> R ==> R) op} (e : T).
Hypothesis op_assoc : ∀ x y z, R (op (op x y) z) (op x (op y z)).
Hypothesis op_comm : ∀ x y, R (op x y) (op y x).
Hypothesis op_left_id : ∀ x, R (op e x) x.

(** The set that is reduced and the contribution of each of its members. *)
Variable items : list A.
Variable g : A → T.

Let at_i (i : nat) : T := match items !! i with Some c => g c | None => e end.
Let total (idxs : list nat) : T := foldr (λ i acc, op (at_i i) acc) e idxs.
Let body (r : tbb.blocked_range) (local : T) : T :=
  tbb.for_range r (ipc.at_index items (λ c acc, op acc (g c))) local.

Lemma op_right_id x : R (op x e) x.
Proof. by rewrite op_comm. Qed.

Lemma total_app l1 l2 : R (total (l1 ++ l2)) (op (total l1) (total l2)).
Proof.
  unfold total. induction l1 as [|i l1 IH]; cbn.
  - by rewrite op_left_id.
  - by rewrite IH, op_assoc.
Qed.

Lemma body_total r x : R (body r x) (op x (total (tbb.indices r))).
Proof.
  unfold body, tbb.for_range. generalize (tbb.indices r) as idxs.
  intros idxs. revert x. induction idxs as [|i idxs IH]; intros x; cbn.
  - by rewrite op_right_id.
  - rewrite IH, <- op_assoc. f_equiv; [|done].
    unfold ipc.at_index, at_i. destruct (items !! i); [done|].
    by rewrite op_right_id.
Qed.

Lemma merge_insert_fresh (st : gmap nat T) w x :
  st !! w = None →
  R (tbb.merge op e (<[w:=x]> st)) (op (tbb.merge op e st) x).
Proof.
  intros Hw. unfold tbb.merge.
  apply (map_fold_insert R (λ _ local acc, op acc local)); [| |done].
  - intros _ z y1 y2 Hy. by rewrite Hy.
  - intros _ _ z1 z2 y _ _ _.
    by rewrite !op_assoc, (op_comm z2 z1).
Qed.

Lemma merge_run_task (st : gmap nat T) t :
  R (tbb.merge op e (tbb.run_task e body st t))
    (op (tbb.merge op e st) (total (tbb.indices (tbb.range t)))).
Proof.
  unfold tbb.run_task, tbb.local.
  destruct (st !! tbb.worker t) as [x|] eqn:Hw; cbn.
  - rewrite <- (insert_delete_eq st (tbb.worker t)).
    rewrite <- (insert_delete_id st (tbb.worker t) x) at 2 by done.
    rewrite !merge_insert_fresh by apply lookup_delete_eq.
    by rewrite body_total, op_assoc.
  - rewrite merge_insert_fresh by done.
    by rewrite body_total, op_left_id.
Qed.

Lemma merge_tasks sched (st : gmap nat T) :
  R (tbb.merge op e (foldl (tbb.run_task e body) st sched))
    (op (tbb.merge op e st)
        (total (sched ≫= (λ t, tbb.indices (tbb.range t))))).
Proof.
  revert st. induction sched as [|t sched IH]; intros st.
  - cbn. by rewrite op_right_id.
  - rewrite bind_cons, total_app. cbn [foldl].
    by rewrite IH, merge_run_task, op_assoc.
Qed.

Lemma total_permutation l1 l2 : l1 ≡ₚ l2 → R (total l1) (total l2).
Proof.
  intros Hp. unfold total.
  apply (foldr_permutation R (λ i acc, op (at_i i) acc) e
           (Hf := λ i y1 y2 Hy, op_proper _ _ (reflexivity _) _ _ Hy));
    [|done].
  intros _ a1 _ a2 b _ _ _.
  by rewrite <- !op_assoc, (op_comm (at_i a1)).
Qed.

Lemma total_all :
  total (seq 0 (length items)) = foldr (λ c acc, op (g c) acc) e items.
Proof.
  unfold total, at_i. clear body.
  induction items as [|c l IH]; [done|]. cbn [length seq foldr lookup].
  rewrite <- fmap_S_seq, foldr_fmap. cbn. by rewrite <- IH.
Qed.

(** Whatever the split of the range and the assignment of the subranges
    to workers, merging the slots gives the reduction of the whole set. *)
Lemma parallel_for_reduce sched :
  tbb.covers sched 0 (length items) →
  R (tbb.merge op e
       (tbb.parallel_for e sched (λ r local,
          tbb.for_range r (ipc.at_index items (λ c acc, op acc (g c))) local)))
    (foldr (λ c acc, op (g c) acc) e items).
Proof.
  intros Hc. unfold tbb.parallel_for. fold body.
  rewrite merge_tasks. unfold tbb.merge at 1. rewrite map_fold_empty.
  rewrite op_left_id, <- total_all.
  apply total_permutation. unfold tbb.covers in Hc.
  by rewrite Nat.sub_0_r in Hc.
Qed.
End reduction.

(** Every range has a schedule: one worker that takes it whole. *)
Lemma single_worker_covers (n : nat) : tbb.covers (tbb.single_worker 0 n) 0 n.
Proof.
  unfold tbb.covers, tbb.single_worker, tbb.indices. cbn.
  by rewrite app_nil_r.
Qed.

(** ** Order and minimum on [double_inf] *)

#[local] Instance deq_equivalence : Equivalence deq.
Proof.
  split.
  - intros [x|]; cbn; [reflexivity | done].
  - intros [x|] [y|]; cbn; try done.
  - intros [x|] [y|] [z|]; cbn; try done. intros ??. by etransitivity.
Qed.

Ltac order_cases :=
  unfold std_min, dlt, dle, deq in *;
  repeat match goal with
    | |- context [Qltb ?a ?b] => destruct (Qltb a b) eqn:?
    | H : Qltb _ _ = true |- _ => apply Qltb_lt in H
    | H : Qltb _ _ = false |- _ => apply Qltb_ge in H
    end;
  try reflexivity; try tauto; try lra.

#[local] Instance std_min_proper : Proper (deq ==> deq ==> deq) std_min.
Proof. intros [x1|] [x2|] Hx [y1|] [y2|] Hy; order_cases. Qed.

Lemma std_min_assoc x y z : deq (std_min (std_min x y) z) (std_min x (std_min y z)).
Proof. destruct x, y, z; order_cases. Qed.

Lemma std_min_comm x y : deq (std_min x y) (std_min y x).
Proof. destruct x, y; order_cases. Qed.

Lemma std_min_left_id x : deq (std_min Infinity x) x.
Proof. destruct x; order_cases. Qed.

Lemma dle_Fin x y : dle (Fin x) (Fin y) = true ↔ x <= y.
Proof. apply Qle_bool_iff. Qed.

(** The minimum of a list of numbers, folded with [std::min]. *)
Lemma foldr_std_min_lower_bound (ds : list double) (d : double) :
  d ∈ ds → dle (foldr (λ x acc, std_min (Fin x) acc) Infinity ds) (Fin d) = true.
Proof.
  induction 1 as [d ds|d d' ds _ IH]; cbn.
  - destruct (foldr _ _ ds); unfold std_min, dlt, dle.
    + destruct (Qltb x d) eqn:Hlt; apply Qle_bool_iff;
        [apply Qltb_lt in Hlt; lra | lra].
    + apply Qle_bool_iff. lra.
  - destruct (foldr _ _ ds) as [m|]; [|done]. unfold std_min, dlt, dle in *.
    apply Qle_bool_iff in IH.
    destruct (Qltb m d') eqn:Hlt; apply Qle_bool_iff;
      [done | apply Qltb_ge in Hlt; lra].
Qed.

Lemma foldr_std_min_attained (ds : list double) :
  ds ≠ [] →
  ∃ d, d ∈ ds ∧ foldr (λ x acc, std_min (Fin x) acc) Infinity ds = Fin d.
Proof.
  induction ds as [|d ds IH]; [done|]. intros _. cbn.
  destruct ds as [|d' ds'].
  - exists d. split; [left|done].
  - destruct IH as (m & Hm & ->); [done|]. unfold std_min, dlt.
    destruct (Qltb m d); [exists m | exists d]; split; try done;
      [by right | left].
Qed.

(** ** The barrier potential and the minimum distance *)

Section assembler.
Import Eigen ipc.
Variable sched : list tbb.task.
Variable mesh : CollisionMesh.
Variable V : MatrixXd.
Variable constraint_set : list CollisionConstraint.

Lemma rows_checked : rows V = num_vertices mesh →
  (rows V =? num_vertices mesh)%nat = true.
Proof. apply Nat.eqb_eq. Qed.

Lemma not_empty {A} (l : list A) : l ≠ [] → empty l = false.
Proof. by destruct l. Qed.

(** C7: on a non-empty constraint set, whatever the split of the range
    into subranges and their assignment to workers, the thread-local
    accumulation followed by the merge returns the sum, over the
    constraints in order, of each constraint's potential (as rationals,
    that is up to the order of the floating-point additions). *)
Theorem compute_barrier_potential_parallel_sum (dhat : double) :
  rows V = num_vertices mesh →
  constraint_set ≠ [] →
  tbb.covers sched 0 (length constraint_set) →
  ∃ potential,
    compute_barrier_potential sched mesh V constraint_set dhat
    = Returns potential [ParallelFor 0 (length constraint_set)]
    ∧ potential == sequential_barrier_potential mesh V constraint_set dhat.
Proof.
  intros Hrows Hne Hcov. unfold compute_barrier_potential.
  rewrite (rows_checked Hrows), (not_empty _ Hne). cbn.
  eexists. split; [reflexivity|].
  rewrite (parallel_for_reduce Qeq Qplus 0
             (λ x y z, Qeq_sym _ _ (Qplus_assoc x y z)) Qplus_comm Qplus_0_l
             constraint_set
             (λ c, compute_potential c V (edges mesh) (faces mesh) dhat)
             sched Hcov).
  reflexivity.
Qed.

(** C10: the empty constraint set gives positive infinity; on a
    non-empty set, whatever the schedule, the result is a number that is
    at most the distance computed by every constraint and is the distance
    computed by one of them. *)
Theorem compute_minimum_distance_spec :
  rows V = num_vertices mesh →
  tbb.covers sched 0 (length constraint_set) →
  (constraint_set = [] →
   compute_minimum_distance sched mesh V constraint_set = Returns Infinity [])
  ∧ (constraint_set ≠ [] →
     ∃ min_dist,
       compute_minimum_distance sched mesh V constraint_set
       = Returns (Fin min_dist) [ParallelFor 0 (length constraint_set)]
       ∧ (∀ c, c ∈ constraint_set →
               min_dist <= compute_distance c V (edges mesh) (faces mesh))
       ∧ (∃ c, c ∈ constraint_set
               ∧ min_dist == compute_distance c V (edges mesh) (faces mesh))).
Proof.
  intros Hrows Hcov. unfold compute_minimum_distance.
  rewrite (rows_checked Hrows). split.
  - by intros ->.
  - intros Hne. rewrite (not_empty _ Hne). cbn.
    set (dist := λ c, compute_distance c V (edges mesh) (faces mesh)).
    match goal with |- context [tbb.merge ?op ?e ?st] =>
      assert (deq (tbb.merge op e st)
                  (foldr (λ x acc, std_min (Fin x) acc) Infinity
                         (dist <$> constraint_set))) as Hred
    end.
    { rewrite foldr_fmap.
      apply (parallel_for_reduce deq std_min Infinity std_min_assoc
               std_min_comm std_min_left_id constraint_set
               (λ c, Fin (dist c)) sched Hcov). }
    destruct (foldr_std_min_attained (dist <$> constraint_set))
      as (m & Hm & Hfold); [by destruct constraint_set|].
    rewrite Hfold in Hred.
    match type of Hred with deq ?x _ => destruct x as [d|] eqn:Hres end;
      [|done].
    exists d. split; [reflexivity|]. cbn in Hred. split.
    + intros c Hc.
      pose proof (foldr_std_min_lower_bound (dist <$> constraint_set) (dist c))
        as Hlb.
      rewrite Hfold in Hlb. apply dle_Fin in Hlb.
      * by rewrite Hred.
      * by apply list_elem_of_fmap_2.
    + apply list_elem_of_fmap in Hm as (c & -> & Hc). eauto.
Qed.

(** C5: with an empty constraint set the potential is [0], the gradient
    is the zero vector of size [num_vertices * dim] and the Hessian has
    that extent in both directions and no entry, so that all of its
    coefficients are zero; none of the three calls launches a
    [parallel_for]. *)
Theorem empty_constraint_set_shortcuts (dhat : double) (project : bool) :
  rows V = num_vertices mesh →
  compute_barrier_potential sched mesh V [] dhat = Returns 0 []
  ∧ (∃ grad,
       compute_barrier_potential_gradient sched mesh V [] dhat
       = Returns grad []
       ∧ length grad = (num_vertices mesh * cols V)%nat
       ∧ ∀ x, x ∈ grad → x = 0)
  ∧ (∃ hess,
       compute_barrier_potential_hessian sched mesh V [] dhat project
       = Returns hess []
       ∧ sm_rows hess = (num_vertices mesh * cols V)%nat
       ∧ sm_cols hess = (num_vertices mesh * cols V)%nat
       ∧ sm_triplets hess = []
       ∧ ∀ i j, sm_coeff hess i j = 0).
Proof.
  intros Hrows.
  unfold compute_barrier_potential, compute_barrier_potential_gradient,
    compute_barrier_potential_hessian.
  rewrite (rows_checked Hrows). cbn. unfold size. rewrite Hrows.
  split; [done|]. split.
  - eexists. split; [reflexivity|]. unfold Zero. split.
    + apply length_replicate.
    + by intros x ?%elem_of_replicate_inv.
  - eexists. split; [reflexivity|]. done.
Qed.

End assembler.

(** ** The reducer of the earliest time of impact *)

Lemma dle_refl a : dle a a = true.
Proof. destruct a; cbn; [apply Qle_bool_iff; lra | done]. Qed.

Lemma dle_trans a b c : dle a b = true → dle b c = true → dle a c = true.
Proof.
  destruct a, b, c; cbn; try done.
  rewrite !Qle_bool_iff. lra.
Qed.

Lemma dlt_dle_trans a b c : dlt a b = true → dle b c = true → dlt a c = true.
Proof.
  destruct a, b, c; cbn; try done.
  rewrite !Qltb_lt, Qle_bool_iff. lra.
Qed.

Lemma dlt_irrefl_dle a b : dlt a b = true → dle b a = true → False.
Proof.
  destruct a, b; cbn; try done.
  rewrite Qltb_lt, Qle_bool_iff. lra.
Qed.

Lemma dle_total_dlt a b : dlt a b = false → dle b a = true.
Proof.
  destruct a, b; cbn; try done.
  rewrite Qltb_ge, Qle_bool_iff. lra.
Qed.

Lemma commit_le r e : dle (ipc.commit r e) e = true.
Proof.
  destruct r as [[] toi]; cbn; [|apply dle_refl].
  destruct (dlt toi e) eqn:Hlt; [|apply dle_refl].
  destruct toi, e; cbn in *; try done.
  apply Qltb_lt in Hlt. apply Qle_bool_iff. lra.
Qed.

Lemma commit_le_toi toi e : dle (ipc.commit (true, toi) e) toi = true.
Proof.
  cbn. destruct (dlt toi e) eqn:Hlt; [apply dle_refl|].
  by apply dle_total_dlt.
Qed.

Lemma commit_cases r e :
  ipc.commit r e = e
  ∨ (r.1 = true ∧ ipc.commit r e = r.2 ∧ dlt r.2 e = true).
Proof.
  destruct r as [[] toi]; cbn; [|by left].
  destruct (dlt toi e); [by right | by left].
Qed.

#[local] Set Warnings "-clear-no-such-hyp".

Section toi_reducer.
Import Eigen ipc.
Variable candidates : list Candidate.
Variables V0 V1 : MatrixXd.
Variables E F : MatrixXi.
Variable tolerance : double.
Variable max_iterations : Z.

Local Abbreviation step :=
  (narrow_phase_step candidates V0 V1 E F tolerance max_iterations).
Local Abbreviation call := (candidate_ccd V0 V1 E F tolerance max_iterations).

(** The run of the rest of a schedule from any state met on the way:
    [reads] gives, for every candidate still to be committed, the bound
    its call was or will be given. *)
Lemma narrow_phase_from sched : ∀ st (pending running : gset nat),
  well_formed_from pending running sched = true →
  pending ## running →
  (∀ i, i ∈ pending ∪ running → is_Some (candidates !! i)) →
  dom (in_flight st) = running →
  (∀ i tmax, in_flight st !! i = Some tmax →
             dle (earliest_toi st) tmax = true) →
  ∃ reads : gmap nat double_inf,
    dom reads = pending ∪ running
    ∧ (∀ i tmax, in_flight st !! i = Some tmax → reads !! i = Some tmax)
    ∧ (∀ i tmax, reads !! i = Some tmax →
         dle (earliest_toi (foldl step st sched)) tmax = true
         ∧ (i ∈ pending → dle tmax (earliest_toi st) = true))
    ∧ dle (earliest_toi (foldl step st sched)) (earliest_toi st) = true
    ∧ (∀ i c tmax toi,
         candidates !! i = Some c → reads !! i = Some tmax →
         call c tmax = (true, toi) →
         dle (earliest_toi (foldl step st sched)) toi = true)
    ∧ (earliest_toi (foldl step st sched) = earliest_toi st
       ∨ ∃ i c tmax,
           candidates !! i = Some c ∧ reads !! i = Some tmax
           ∧ call c tmax = (true, earliest_toi (foldl step st sched))
           ∧ dlt (earliest_toi (foldl step st sched)) (earliest_toi st)
             = true).
Proof.
  induction sched as [|[i|i] sched IH]; intros st pending running Hwf Hdisj
    Hcand Hdom Hfl; cbn [well_formed_from foldl] in *.
  - apply andb_true_iff in Hwf as [->%bool_decide_eq_true ->%bool_decide_eq_true].
    exists ∅. split; [set_solver|]. split.
    { intros i tmax Hi. apply (elem_of_dom_2 (D := gset nat)) in Hi.
      rewrite Hdom in Hi. set_solver. }
    split; [by intros ?? ?%lookup_empty_Some|].
    split; [apply dle_refl|]. split; [by intros ???? ? ?%lookup_empty_Some|].
    by left.
  - apply andb_true_iff in Hwf as [Hi%bool_decide_eq_true Hwf].
    destruct (Hcand i) as [c Hc]; [set_solver|].
    cbn [narrow_phase_step]. rewrite Hc.
    set (st1 := {| earliest_toi := earliest_toi st;
                   in_flight := <[i:=earliest_toi st]> (in_flight st) |}).
    destruct (IH st1 _ _ Hwf) as (reads & Hr1 & Hr2 & Hr3 & Hr4 & Hr5 & Hr6).
    { set_solver. }
    { intros j Hj. apply Hcand. set_solver. }
    { cbn. rewrite dom_insert_L. by rewrite Hdom. }
    { cbn. intros j tmax. rewrite lookup_insert.
      case_decide; [intros [= <-]; apply dle_refl | apply Hfl]. }
    cbn [earliest_toi in_flight st1] in *.
    exists reads. split.
    { rewrite Hr1. apply set_eq. intros j.
      destruct (decide (j = i)); set_solver. }
    split.
    { intros j tmax Hj. apply Hr2. rewrite lookup_insert_ne; [done|].
      intros ->. apply (elem_of_dom_2 (D := gset nat)) in Hj. set_solver. }
    split.
    { intros j tmax Hj. split; [by eapply Hr3|]. intros Hjp.
      destruct (decide (j = i)) as [->|Hne].
      - specialize (Hr2 i (earliest_toi st)).
        rewrite lookup_insert_eq in Hr2. specialize (Hr2 eq_refl).
        rewrite Hj in Hr2. injection Hr2 as ->. apply dle_refl.
      - destruct (Hr3 _ _ Hj) as [_ H2]. apply H2. set_solver. }
    done.
  - apply andb_true_iff in Hwf as [Hi%bool_decide_eq_true Hwf].
    destruct (Hcand i) as [c Hc]; [set_solver|].
    assert (is_Some (in_flight st !! i)) as [tmax_i Hti]
      by (apply (elem_of_dom (D := gset nat)); by rewrite Hdom).
    cbn [narrow_phase_step]. rewrite Hc, Hti.
    set (e1 := commit (call c tmax_i) (earliest_toi st)).
    set (st1 := {| earliest_toi := e1; in_flight := delete i (in_flight st) |}).
    assert (dle e1 (earliest_toi st) = true) as He1 by apply commit_le.
    destruct (IH st1 _ _ Hwf) as (reads & Hr1 & Hr2 & Hr3 & Hr4 & Hr5 & Hr6).
    { set_solver. }
    { intros j Hj. apply Hcand. set_solver. }
    { cbn. rewrite dom_delete_L. by rewrite Hdom. }
    { cbn. intros j tmax. rewrite lookup_delete.
      case_decide; [done|]. intros Hj. eapply dle_trans; eauto. }
    cbn [earliest_toi in_flight st1] in *.
    set (e' := earliest_toi (foldl step st1 sched)) in *.
    assert (reads !! i = None) as Hni.
    { apply (not_elem_of_dom (D := gset nat)). rewrite Hr1. set_solver. }
    exists (<[i:=tmax_i]> reads). split.
    { rewrite dom_insert_L, Hr1. apply set_eq. intros j.
      destruct (decide (j = i)); set_solver. }
    split.
    { intros j tmax Hj. destruct (decide (j = i)) as [->|Hne].
      - rewrite lookup_insert_eq. congruence.
      - rewrite lookup_insert_ne by done. apply Hr2.
        by rewrite lookup_delete_ne. }
    split.
    { intros j tmax. rewrite lookup_insert. case_decide as Hji.
      - intros [= <-]. subst j. split; [|set_solver].
        eapply dle_trans; [apply Hr4|]. eapply dle_trans; eauto.
      - intros Hj. destruct (Hr3 _ _ Hj) as [H1 H2]. split; [done|].
        intros Hjp. eapply dle_trans; eauto. }
    split; [by eapply dle_trans|]. split.
    { intros j cj tmax toi Hcj. rewrite lookup_insert. case_decide as Hji.
      - intros [= <-] Hcall. subst j. assert (cj = c) as -> by congruence.
        eapply dle_trans; [apply Hr4|]. subst e1. rewrite Hcall.
        apply commit_le_toi.
      - intros Hj Hcall. by eapply Hr5. }
    destruct Hr6 as [Heq|(j & cj & tmax & Hcj & Hj & Hcall & Hlt)].
    + destruct (commit_cases (call c tmax_i) (earliest_toi st))
        as [Hsame|(Hb & Htoi & Hlt)].
      * left. by rewrite Heq.
      * right. exists i, c, tmax_i. rewrite lookup_insert_eq.
        split; [done|]. split; [done|]. fold e1 in Htoi. rewrite Heq.
        split; [|by rewrite Htoi].
        rewrite Htoi, <- Hb. apply surjective_pairing.
    + right. exists j, cj, tmax. split; [done|].
      assert (j ≠ i) by (intros ->; congruence).
      rewrite lookup_insert_ne by done. split; [done|]. split; [done|].
      by eapply dlt_dle_trans.
Qed.

(** Every candidate set has a well-formed schedule: the sequential one. *)
Lemma sequential_well_formed_from (n : nat) : ∀ k,
  well_formed_from (list_to_set (seq k n)) ∅ (i ← seq k n; [Call i; Commit i])
  = true.
Proof.
  induction n as [|n IH]; intros k.
  - cbn. by rewrite !bool_decide_eq_true_2.
  - cbn [seq]. rewrite bind_cons. cbn [app well_formed_from].
    rewrite !bool_decide_eq_true_2 by set_solver. cbn [andb].
    assert (k ∉ seq (S k) n) as Hk by (rewrite elem_of_seq; lia).
    replace (list_to_set (k :: seq (S k) n) ∖ {[k]} : gset nat)
      with (list_to_set (seq (S k) n) : gset nat) by set_solver.
    replace (({[k]} ∪ ∅) ∖ {[k]} : gset nat) with (∅ : gset nat) by set_solver.
    apply IH.
Qed.

Lemma sequential_well_formed (n : nat) : well_formed n (sequential n) = true.
Proof. apply sequential_well_formed_from. Qed.

(** The bound after a whole schedule: it is at most [1] and at most what
    every candidate contributes, and it is [1] or the time of impact that
    one of the calls reported.  [tmax i] is the bound the call of
    candidate [i] was given; it lies between the final bound and [1]. *)
Lemma narrow_phase_minimum sched :
  well_formed (length candidates) sched = true →
  ∃ tmax : nat → double_inf,
    dle (earliest_toi (narrow_phase candidates V0 V1 E F tolerance
                         max_iterations sched)) (Fin 1) = true
    ∧ (∀ i c, candidates !! i = Some c →
         dle (earliest_toi (narrow_phase candidates V0 V1 E F tolerance
                              max_iterations sched)) (tmax i) = true
         ∧ dle (tmax i) (Fin 1) = true
         ∧ dle (earliest_toi (narrow_phase candidates V0 V1 E F tolerance
                                max_iterations sched))
               (candidate_toi (call c (tmax i))) = true)
    ∧ (earliest_toi (narrow_phase candidates V0 V1 E F tolerance
                       max_iterations sched) = Fin 1
       ∨ ∃ i c,
           candidates !! i = Some c
           ∧ call c (tmax i)
             = (true, earliest_toi (narrow_phase candidates V0 V1 E F
                                      tolerance max_iterations sched))
           ∧ dlt (earliest_toi (narrow_phase candidates V0 V1 E F tolerance
                                  max_iterations sched)) (Fin 1) = true).
Proof.
  intros Hwf. unfold narrow_phase, well_formed in *.
  set (st0 := {| earliest_toi := Fin 1; in_flight := ∅ |}).
  destruct (narrow_phase_from sched st0 _ _ Hwf)
    as (reads & Hr1 & _ & Hr3 & Hr4 & Hr5 & Hr6).
  { set_solver. }
  { intros i Hi. apply lookup_lt_is_Some.
    assert (i ∈ seq 0 (length candidates)) as Hs by set_solver.
    apply elem_of_seq in Hs. lia. }
  { cbn. apply dom_empty_L. }
  { cbn. by intros ?? ?%lookup_empty_Some. }
  cbn [earliest_toi st0] in *.
  exists (λ i, match reads !! i with Some t => t | None => Fin 1 end).
  split; [done|]. split.
  - intros i c Hc.
    assert (i ∈ (list_to_set (seq 0 (length candidates)) : gset nat)) as Hi.
    { apply elem_of_list_to_set, elem_of_seq.
      apply lookup_lt_Some in Hc. lia. }
    assert (is_Some (reads !! i)) as [tmax Ht].
    { apply (elem_of_dom (D := gset nat)). rewrite Hr1. set_solver. }
    rewrite Ht.
    destruct (Hr3 _ _ Ht) as [H1 H2]. split; [done|]. split; [by apply H2|].
    unfold candidate_toi.
    destruct (commit_cases (call c tmax) (Fin 1)) as [->|(Hb & -> & _)];
      [exact Hr4|].
    eapply (Hr5 i c tmax); [done|done|].
    rewrite <- Hb. apply surjective_pairing.
  - destruct Hr6 as [?|(i & c & tmax & Hc & Ht & Hcall & Hlt)]; [by left|].
    right. exists i, c. by rewrite Ht.
Qed.

(** When every call uses [tmax] only to bound its search, the bound after
    a whole schedule is the least of [1] and the times of impact of the
    candidates. *)
Lemma narrow_phase_true_minimum sched (impacts : list (option double)) :
  well_formed (length candidates) sched = true →
  Forall2 (λ c impact, searches_up_to_tmax (call c) impact) candidates impacts →
  dle (earliest_toi (narrow_phase candidates V0 V1 E F tolerance
                       max_iterations sched)) (Fin 1) = true
  ∧ (∀ i t, impacts !! i = Some (Some t) →
       dle (earliest_toi (narrow_phase candidates V0 V1 E F tolerance
                            max_iterations sched)) (Fin t) = true)
  ∧ (earliest_toi (narrow_phase candidates V0 V1 E F tolerance
                     max_iterations sched) = Fin 1
     ∨ ∃ i t, impacts !! i = Some (Some t)
              ∧ earliest_toi (narrow_phase candidates V0 V1 E F tolerance
                                max_iterations sched) = Fin t).
Proof.
  intros Hwf Hcalls.
  destruct (narrow_phase_minimum sched Hwf) as (tmax & Hle1 & Hlow & Hatt).
  set (e := earliest_toi _) in *.
  split; [done|]. split.
  - intros i t Hi.
    destruct (Forall2_lookup_r _ _ _ _ _ Hcalls Hi) as (c & Hc & Hcall).
    destruct (Hlow i c Hc) as (Htm & _ & Hct).
    unfold searches_up_to_tmax in Hcall.
    specialize (Hcall (tmax i)). cbv beta iota in Hcall.
    destruct (dle (Fin t) (tmax i)) eqn:Hin.
    + rewrite Hcall in Hct. unfold candidate_toi, commit in Hct.
      cbn [andb] in Hct.
      destruct (dlt (Fin t) (Fin 1)) eqn:Hlt; [done|].
      eapply dle_trans; [exact Hct|]. by apply dle_total_dlt.
    + eapply dle_trans; [exact Htm|].
      destruct (tmax i) as [x|]; [|done]. cbn in *.
      apply Qle_bool_iff. apply not_true_iff_false in Hin.
      rewrite Qle_bool_iff in Hin. lra.
  - destruct Hatt as [?|(i & c & Hc & Hcall & _)]; [by left|]. right.
    destruct (Forall2_lookup_l _ _ _ _ _ Hcalls Hc) as (impact & Hi & Hs).
    unfold searches_up_to_tmax in Hs. specialize (Hs (tmax i)).
    cbv beta in Hs. rewrite Hcall in Hs.
    destruct impact as [t|]; [|done].
    destruct (dle (Fin t) (tmax i)); [|done].
    exists i, t. split; [done|]. congruence.
Qed.

(** The step size does not depend on the schedule: two runs of such
    candidates end with the same number. *)
Lemma narrow_phase_schedule_independent sched1 sched2
    (impacts : list (option double)) :
  well_formed (length candidates) sched1 = true →
  well_formed (length candidates) sched2 = true →
  Forall2 (λ c impact, searches_up_to_tmax (call c) impact) candidates impacts →
  deq (earliest_toi (narrow_phase candidates V0 V1 E F tolerance
                       max_iterations sched1))
      (earliest_toi (narrow_phase candidates V0 V1 E F tolerance
                       max_iterations sched2)).
Proof.
  intros Hwf1 Hwf2 Hcalls.
  destruct (narrow_phase_true_minimum sched1 impacts Hwf1 Hcalls)
    as (H11 & H12 & H13).
  destruct (narrow_phase_true_minimum sched2 impacts Hwf2 Hcalls)
    as (H21 & H22 & H23).
  set (e1 := earliest_toi (narrow_phase _ _ _ _ _ _ _ sched1)) in *.
  set (e2 := earliest_toi (narrow_phase _ _ _ _ _ _ _ sched2)) in *.
  assert (dle e1 e2 = true) as Hle12.
  { destruct H23 as [->|(i & t & Hi & ->)]; [done | by eapply H12]. }
  assert (dle e2 e1 = true) as Hle21.
  { destruct H13 as [->|(i & t & Hi & ->)]; [done | by eapply H22]. }
  destruct e1, e2; cbn in *; try done.
  apply Qle_bool_iff in Hle12, Hle21. lra.
Qed.
End toi_reducer.

Section collision_free_stepsize.
Import Eigen ipc.
Variable candidates : list Candidate.
Variable mesh : CollisionMesh.
Variables V0 V1 : MatrixXd.
Variable tolerance : double.
Variable max_iterations : Z.

(** What the narrow phase leaves in [earliest_toi], said with the [ccd]
    method of the candidates alone.  [tmax i] is the bound that the call
    of candidate [i] was given. *)
Lemma narrow_phase_of_the_calls sched :
  well_formed (length candidates) sched = true →
  ∃ tmax : nat → double_inf,
    dle (earliest_toi (narrow_phase candidates V0 V1 (edges mesh) (faces mesh)
                         tolerance max_iterations sched)) (Fin 1) = true
    ∧ (∀ i c, candidates !! i = Some c →
         dle (earliest_toi (narrow_phase candidates V0 V1 (edges mesh)
                              (faces mesh) tolerance max_iterations sched))
             (tmax i) = true
         ∧ dle (tmax i) (Fin 1) = true
         ∧ ∀ toi_i,
             ccd c V0 V1 (edges mesh) (faces mesh) Infinity (tmax i) tolerance
               max_iterations = (true, toi_i) →
             dle (earliest_toi (narrow_phase candidates V0 V1 (edges mesh)
                                  (faces mesh) tolerance max_iterations sched))
                 toi_i = true)
    ∧ (earliest_toi (narrow_phase candidates V0 V1 (edges mesh) (faces mesh)
                       tolerance max_iterations sched) = Fin 1
       ∨ ∃ i c,
           candidates !! i = Some c
           ∧ ccd c V0 V1 (edges mesh) (faces mesh) Infinity (tmax i) tolerance
               max_iterations
             = (true, earliest_toi (narrow_phase candidates V0 V1 (edges mesh)
                                      (faces mesh) tolerance max_iterations
                                      sched))
           ∧ dlt (earliest_toi (narrow_phase candidates V0 V1 (edges mesh)
                                  (faces mesh) tolerance max_iterations sched))
                 (Fin 1) = true).
Proof.
  intros Hwf.
  destruct (narrow_phase_minimum candidates V0 V1 (edges mesh) (faces mesh)
              tolerance max_iterations sched Hwf)
    as (tmax & Hle1 & Hlow & Hatt).
  set (e := earliest_toi (narrow_phase _ _ _ _ _ _ _ sched)) in *.
  exists tmax. split; [done|]. split; [|done].
  intros i c Hc. destruct (Hlow i c Hc) as (H1 & H2 & H3).
  split; [done|]. split; [done|]. intros toi_i Hcall.
  unfold candidate_toi, candidate_ccd in H3. rewrite Hcall in H3.
  cbn [commit andb] in H3.
  destruct (dlt toi_i (Fin 1)) eqn:Hlt; [done|].
  eapply dle_trans; [exact Hle1|]. by apply dle_total_dlt.
Qed.

(** C2: the empty candidate set gives exactly [1].  On a non-empty set,
    whatever the interleaving of the calls and the updates, the function
    returns the minimum of [1] and the times of impact that the calls of
    the candidates' [ccd] report: the result is at most [1] and at most
    every reported time, and it is [1] or one of the reported times.
    [tmax i] is the bound the call of candidate [i] was given, between the
    result and [1].  (The times of impact that the candidates report are
    not negative, as the last assertion wants.) *)
Theorem compute_collision_free_stepsize_minimum sched :
  rows V0 = num_vertices mesh →
  rows V1 = num_vertices mesh →
  well_formed (length candidates) sched = true →
  (∀ c tmax toi, c ∈ candidates →
     ccd c V0 V1 (edges mesh) (faces mesh) Infinity tmax tolerance
       max_iterations = (true, toi) →
     dle (Fin 0) toi = true) →
  (candidates = [] →
   compute_collision_free_stepsize sched candidates mesh V0 V1 tolerance
     max_iterations = Returns (Fin 1) [])
  ∧ (candidates ≠ [] →
     ∃ (toi : double_inf) (tmax : nat → double_inf),
       compute_collision_free_stepsize sched candidates mesh V0 V1 tolerance
         max_iterations
       = Returns toi [ParallelFor 0 (length candidates)]
       ∧ dle toi (Fin 1) = true
       ∧ (∀ i c, candidates !! i = Some c →
            dle toi (tmax i) = true ∧ dle (tmax i) (Fin 1) = true
            ∧ ∀ toi_i,
                ccd c V0 V1 (edges mesh) (faces mesh) Infinity (tmax i)
                  tolerance max_iterations = (true, toi_i) →
                dle toi toi_i = true)
       ∧ (toi = Fin 1
          ∨ ∃ i c, candidates !! i = Some c
                   ∧ ccd c V0 V1 (edges mesh) (faces mesh) Infinity (tmax i)
                       tolerance max_iterations = (true, toi)
                   ∧ dlt toi (Fin 1) = true)).
Proof.
  intros Hrows0 Hrows1 Hwf Hpos. unfold compute_collision_free_stepsize.
  rewrite (rows_checked _ _ Hrows0), (rows_checked _ _ Hrows1).
  split; [by intros ->|]. intros Hne. rewrite (not_empty _ Hne).
  cbv zeta.
  destruct (narrow_phase_of_the_calls sched Hwf) as (tmax & Hle1 & Hlow & Hatt).
  set (e := earliest_toi (narrow_phase _ _ _ _ _ _ _ sched)) in *.
  assert (dle (Fin 0) e = true) as Hge0.
  { destruct Hatt as [->|(i & c & Hc & Hcall & _)]; [done|].
    eapply Hpos; [|exact Hcall]. by eapply list_elem_of_lookup_2. }
  rewrite Hge0, Hle1. cbn.
  exists e, tmax. done.
Qed.

(** C4 (amended): a returned time of impact lies in [[0, 1]]; it is [1]
    when the candidate set is empty; and within the asserted
    preconditions the call returns a time that is [1] exactly when no call
    of a candidate's [ccd] reports an impact before the end of the step.
    [tmax i] is the bound the call of candidate [i] was given. *)
Theorem compute_collision_free_stepsize_range sched :
  (∀ toi trace,
     compute_collision_free_stepsize sched candidates mesh V0 V1 tolerance
       max_iterations = Returns toi trace →
     dle (Fin 0) toi = true ∧ dle toi (Fin 1) = true)
  ∧ (rows V0 = num_vertices mesh → rows V1 = num_vertices mesh →
     candidates = [] →
     compute_collision_free_stepsize sched candidates mesh V0 V1 tolerance
       max_iterations = Returns (Fin 1) [])
  ∧ (rows V0 = num_vertices mesh → rows V1 = num_vertices mesh →
     well_formed (length candidates) sched = true →
     (∀ c tmax toi, c ∈ candidates →
        ccd c V0 V1 (edges mesh) (faces mesh) Infinity tmax tolerance
          max_iterations = (true, toi) →
        dle (Fin 0) toi = true) →
     ∃ (toi : double_inf) (trace : list event) (tmax : nat → double_inf),
       compute_collision_free_stepsize sched candidates mesh V0 V1 tolerance
         max_iterations = Returns toi trace
       ∧ dle (Fin 0) toi = true ∧ dle toi (Fin 1) = true
       ∧ (∀ i c, candidates !! i = Some c →
            dle toi (tmax i) = true ∧ dle (tmax i) (Fin 1) = true)
       ∧ (toi = Fin 1
          ↔ ∀ i c toi_i, candidates !! i = Some c →
              ccd c V0 V1 (edges mesh) (faces mesh) Infinity (tmax i)
                tolerance max_iterations = (true, toi_i) →
              dlt toi_i (Fin 1) = false)).
Proof.
  unfold compute_collision_free_stepsize. split; [|split].
  - intros toi trace. cbv zeta.
    destruct (rows V0 =? num_vertices mesh)%nat; [|done].
    destruct (rows V1 =? num_vertices mesh)%nat; [|done].
    destruct (empty candidates); [by intros [= <- _]|].
    set (e := earliest_toi _).
    destruct (dle (Fin 0) e) eqn:H0; [|done].
    destruct (dle e (Fin 1)) eqn:H1; [|done]. by intros [= <- _].
  - intros Hrows0 Hrows1 ->.
    by rewrite (rows_checked _ _ Hrows0), (rows_checked _ _ Hrows1).
  - intros Hrows0 Hrows1 Hwf Hpos.
    rewrite (rows_checked _ _ Hrows0), (rows_checked _ _ Hrows1).
    destruct candidates as [|c0 cs] eqn:Hcs.
    { cbn. exists (Fin 1), [], (λ _, Fin 1).
      split; [done|]. split; [done|]. split; [done|]. split.
      { intros i c Hi. by rewrite lookup_nil in Hi. }
      split; [|done]. intros _ i c toi_i Hi. by rewrite lookup_nil in Hi. }
    rewrite <- Hcs in *. rewrite (not_empty candidates) by (by rewrite Hcs).
    cbv zeta.
    destruct (narrow_phase_of_the_calls sched Hwf)
      as (tmax & Hle1 & Hlow & Hatt).
    set (e := earliest_toi (narrow_phase _ _ _ _ _ _ _ sched)) in *.
    assert (dle (Fin 0) e = true) as Hge0.
    { destruct Hatt as [->|(i & c & Hc & Hcall & _)]; [done|].
      eapply Hpos; [|exact Hcall]. by eapply list_elem_of_lookup_2. }
    rewrite Hge0, Hle1. cbn.
    exists e, [ParallelFor 0 (length candidates)], tmax.
    split; [done|]. split; [done|]. split; [done|]. split.
    { intros i c Hc. destruct (Hlow i c Hc) as (? & ? & _). done. }
    split.
    + intros He i c toi_i Hc Hcall.
      destruct (Hlow i c Hc) as (_ & _ & Hl). specialize (Hl toi_i Hcall).
      rewrite He in Hl. destruct (dlt toi_i (Fin 1)) eqn:Hlt; [|done].
      by destruct (dlt_irrefl_dle _ _ Hlt Hl).
    + intros Hnone. destruct Hatt as [?|(i & c & Hc & Hcall & Hlt)]; [done|].
      rewrite (Hnone i c e Hc Hcall) in Hlt. done.
Qed.
End collision_free_stepsize.

(** ** Self-intersection *)

Lemma any_intersecting_stops {C} (test : C → bool) (tag : C → event)
    (candidates : list C) :
  ipc.stops_at_first_hit test tag candidates
    (ipc.any_intersecting test tag candidates).
Proof.
  induction candidates as [|c cs IH]; cbn.
  - right. split; [|done]. by intros x ?%elem_of_nil.
  - destruct (test c) eqn:Hc.
    + left. exists [], c, cs. split; [done|].
      split; [by intros x ?%elem_of_nil|]. done.
    + destruct IH as [(before & c' & after & -> & Hb & Hc' & ->)|[Hall ->]].
      * left. exists (c :: before), c', after. split; [done|]. split; [|done].
        intros x [->|?]%elem_of_cons; auto.
      * right. split; [|done]. intros x [->|?]%elem_of_cons; auto.
Qed.

Section self_intersection.
Import Eigen ipc.
Context {collaborators : Collaborators}.
Variable mesh : CollisionMesh.
Variable V : MatrixXd.
Variable method : BroadPhaseMethod.

(** C8: the broad phase is built with the inflation radius
    [1e-2 * world_bbox_diagonal_length(V)].  In 2D the edge-edge
    candidates are tested in order with [segment_segment_intersect] on the
    first two coordinates of the rows of [V] that the two edges name, in
    3D the edge-face candidates with [is_edge_intersecting_triangle] on
    the rows of the edge and of the face; the call returns [true] at the
    first candidate that intersects, without testing the candidates after
    it, and [false] after testing all candidates when none intersects.
    In any other dimension the call fails its assertion. *)
Theorem has_intersections_spec :
  rows V = num_vertices mesh →
  (cols V = 2%nat →
   stops_at_first_hit
     (λ c, segment_segment_intersect
             (take 2 (row V (icoeff (edges mesh) (edge0_index c) 0)))
             (take 2 (row V (icoeff (edges mesh) (edge0_index c) 1)))
             (take 2 (row V (icoeff (edges mesh) (edge1_index c) 0)))
             (take 2 (row V (icoeff (edges mesh) (edge1_index c) 1))))
     (λ c, ExactTest (edge0_index c) (edge1_index c))
     (detect_edge_edge_candidates method (can_collide mesh) V
        (edges mesh) (faces mesh)
        (double_1e_2 * world_bbox_diagonal_length V))
     (has_intersections mesh V method))
  ∧ (cols V = 3%nat →
     stops_at_first_hit
       (λ c, is_edge_intersecting_triangle
               (row V (icoeff (edges mesh) (edge_index c) 0))
               (row V (icoeff (edges mesh) (edge_index c) 1))
               (row V (icoeff (faces mesh) (face_index c) 0))
               (row V (icoeff (faces mesh) (face_index c) 1))
               (row V (icoeff (faces mesh) (face_index c) 2)))
       (λ c, ExactTest (edge_index c) (face_index c))
       (detect_edge_face_candidates method (can_collide mesh) V
          (edges mesh) (faces mesh)
          (double_1e_2 * world_bbox_diagonal_length V))
       (has_intersections mesh V method))
  ∧ (cols V ≠ 2%nat → cols V ≠ 3%nat →
     has_intersections mesh V method = AssertionFailed).
Proof.
  intros Hrows. unfold has_intersections.
  rewrite (rows_checked _ _ Hrows). split; [|split].
  - intros ->. cbn.
    pose proof (any_intersecting_stops (edges_intersect V (edges mesh))
                  (λ c, ExactTest (edge0_index c) (edge1_index c))
                  (detect_edge_edge_candidates method (can_collide mesh) V
                     (edges mesh) (faces mesh)
                     (conservative_inflation_radius V))) as Hs.
    by destruct (any_intersecting _ _ _).
  - intros ->. cbn.
    pose proof (any_intersecting_stops
                  (edge_intersects_face V (edges mesh) (faces mesh))
                  (λ c, ExactTest (edge_index c) (face_index c))
                  (detect_edge_face_candidates method (can_collide mesh) V
                     (edges mesh) (faces mesh)
                     (conservative_inflation_radius V))) as Hs.
    by destruct (any_intersecting _ _ _).
  - intros H2%Nat.eqb_neq H3%Nat.eqb_neq. rewrite H2. cbn. by rewrite H3.
Qed.
End self_intersection.

(** ** The shape derivative *)

Section sparse_algebra.
Import Eigen.

Lemma sm_coeff_app r1 c1 r2 c2 r3 c3 (ts1 ts2 : list Triplet) i j :
  sm_coeff {| sm_rows := r1; sm_cols := c1; sm_triplets := ts1 ++ ts2 |} i j
  == sm_coeff {| sm_rows := r2; sm_cols := c2; sm_triplets := ts1 |} i j
     + sm_coeff {| sm_rows := r3; sm_cols := c3; sm_triplets := ts2 |} i j.
Proof.
  unfold sm_coeff. cbn [sm_triplets].
  induction ts1 as [|t ts1 IH]; cbn [app foldr].
  - ring.
  - destruct ((t_row t =? i) && (t_col t =? j))%nat; rewrite IH; ring.
Qed.

Lemma sm_coeff_add A B i j :
  sm_coeff (sm_add A B) i j == sm_coeff A i j + sm_coeff B i j.
Proof. destruct A, B. apply sm_coeff_app. Qed.

(** The entries one entry [a] of [u] gives to [u * v.transpose()]. *)
Lemma sm_coeff_outer_row r c (a : nat * double) (v : SparseVector) i j :
  sm_coeff {| sm_rows := r; sm_cols := c;
              sm_triplets := b ← sv_entries v; [triplet a.1 b.1 (a.2 * b.2)] |}
           i j
  == (if (a.1 =? i)%nat then a.2 else 0) * sv_coeff v j.
Proof.
  unfold sm_coeff, sv_coeff. cbn [sm_triplets].
  induction (sv_entries v) as [|b bs IH]; [cbn; ring|].
  rewrite bind_cons. cbn [app foldr t_row t_col t_value].
  destruct (a.1 =? i)%nat, (b.1 =? j)%nat; cbn [andb] in *; rewrite IH; ring.
Qed.

Lemma sm_coeff_outer u v i j :
  sm_coeff (outer u v) i j == sv_coeff u i * sv_coeff v j.
Proof.
  unfold outer. unfold sv_coeff at 1.
  induction (sv_entries u) as [|a az IH]; [cbn; ring|].
  rewrite bind_cons. cbn [foldr].
  rewrite (sm_coeff_app _ _ 0 0 (sv_size u) (sv_size v)), IH.
  rewrite sm_coeff_outer_row.
  destruct (a.1 =? i)%nat; ring.
Qed.
End sparse_algebra.

Section shape_derivative.
Import Eigen ipc.
Variable mesh : CollisionMesh.
Variable V : MatrixXd.
Variable dhat : double.

Lemma shape_derivative_loop_sum constraints : ∀ shape_derivative,
  (∀ c, c ∈ constraints → ¬ weight c == 0) →
  (∀ c, c ∈ constraints → sv_size (weight_gradient c) = size V) →
  ∃ result,
    shape_derivative_loop mesh V dhat constraints shape_derivative
    = Returns result []
    ∧ sm_rows result = sm_rows shape_derivative
    ∧ sm_cols result = sm_cols shape_derivative
    ∧ ∀ i j, sm_coeff result i j
             == sm_coeff shape_derivative i j
                + outer_product_sum mesh V dhat constraints i j.
Proof.
  induction constraints as [|c cs IH]; intros M Hw Hs.
  - exists M. cbn. repeat split. intros i j. ring.
  - cbn [shape_derivative_loop].
    rewrite (proj2 (Nat.eqb_eq _ _) (Hs c (list_elem_of_here _ _))).
    rewrite (proj2 (Qeq_bool_false _ _) (Hw c (list_elem_of_here _ _))).
    cbn [negb assert].
    destruct (IH (sm_add M (outer (scattered_gradient_over_weight mesh V dhat c)
                                  (weight_gradient c))))
      as (result & Hres & Hr & Hc & Hcoeff).
    { intros c' Hc'. apply Hw. by right. }
    { intros c' Hc'. apply Hs. by right. }
    exists result. split.
    { unfold scattered_gradient_over_weight in Hres. cbn. by rewrite Hres. }
    split; [done|]. split; [done|].
    intros i j. rewrite Hcoeff, sm_coeff_add, sm_coeff_outer.
    cbn [outer_product_sum foldr]. unfold outer_product_sum. ring.
Qed.

Lemma shape_derivative_loop_zero_weight constraints : ∀ shape_derivative,
  (∃ c, c ∈ constraints ∧ weight c == 0) →
  shape_derivative_loop mesh V dhat constraints shape_derivative
  = AssertionFailed.
Proof.
  induction constraints as [|c cs IH]; intros M (c0 & Hin & Hz).
  - by apply elem_of_nil in Hin.
  - cbn [shape_derivative_loop].
    destruct (sv_size (weight_gradient c) =? size V)%nat; [|done].
    destruct (Qeq_bool (weight c) 0) eqn:Hw; [done|].
    apply elem_of_cons in Hin as [->|Hin].
    + apply Qeq_bool_iff in Hz. congruence.
    + cbn. rewrite IH; [done|]. eauto.
Qed.

Lemma hessian_returns sched constraints project :
  rows V = num_vertices mesh →
  ∃ hess trace,
    compute_barrier_potential_hessian sched mesh V constraints dhat project
    = Returns hess trace.
Proof.
  intros Hrows. unfold compute_barrier_potential_hessian.
  rewrite (rows_checked _ _ Hrows). destruct (empty constraints); by eexists _, _.
Qed.

(** C6: when no constraint has weight zero (and every weight gradient
    has the size of [V]), the shape derivative is the Hessian assembled
    without projection plus, for each constraint, the outer product of
    the constraint's gradient, divided by its weight and scattered, with
    the constraint's weight gradient.  A constraint of weight zero makes
    the call fail its assertion: no matrix is returned. *)
Theorem compute_barrier_shape_derivative_spec sched constraint_set :
  ((∀ c, c ∈ constraint_set → ¬ weight c == 0) →
   (∀ c, c ∈ constraint_set → sv_size (weight_gradient c) = size V) →
   rows V = num_vertices mesh →
   ∃ hess trace shape_derivative,
     compute_barrier_potential_hessian sched mesh V constraint_set dhat false
     = Returns hess trace
     ∧ compute_barrier_shape_derivative sched mesh V constraint_set dhat
       = Returns shape_derivative trace
     ∧ sm_rows shape_derivative = sm_rows hess
     ∧ sm_cols shape_derivative = sm_cols hess
     ∧ ∀ i j, sm_coeff shape_derivative i j
              == sm_coeff hess i j
                 + outer_product_sum mesh V dhat constraint_set i j)
  ∧ ((∃ c, c ∈ constraint_set ∧ weight c == 0) →
     compute_barrier_shape_derivative sched mesh V constraint_set dhat
     = AssertionFailed).
Proof.
  unfold compute_barrier_shape_derivative. split.
  - intros Hw Hs Hrows.
    destruct (hessian_returns sched constraint_set false Hrows)
      as (hess & trace & Hh).
    destruct (shape_derivative_loop_sum constraint_set hess Hw Hs)
      as (result & Hres & Hr & Hc & Hcoeff).
    exists hess, trace, result. rewrite Hh. cbn. rewrite Hres.
    by rewrite app_nil_r.
  - intros Hz.
    destruct (compute_barrier_potential_hessian _ _ _ _ _ _) as [hess tr|];
      [|done].
    cbn. by rewrite shape_derivative_loop_zero_weight.
Qed.
End shape_derivative.

(** ** Concrete runs *)

Section concrete_runs.
Import Eigen ipc examples.

(** The second query of [retry_hits] reports an impact at [1/2000000]:
    the controller returns that time multiplied by the rescaling factor. *)
Lemma ccd_strategy_small_toi_retry_run :
  ccd.ccd_strategy retry_hits 1 (4 # 5) 0
  = Returns (true, (1 # 2000000) * (4 # 5))
      [OracleQuery ((1 - (4 # 5)) * 1) false; OracleQuery 0 true].
Proof.
  apply (ccd_strategy_small_toi_retry retry_hits 1 (4 # 5) 0 0 (1 # 2000000));
    (reflexivity || (intros Hz; vm_compute in Hz; discriminate Hz)).
Defined.

(** The second query of [retry_misses] reports no impact and leaves
    [1/2] in [toi].  The premises of the retry hold, the oracle is
    queried twice, and the time returned is [1/2], not [1/2] multiplied
    by the rescaling factor [4/5]. *)
Lemma ccd_strategy_retry_without_impact_not_rescaled :
  0 < 1
  ∧ retry_misses ((1 - (4 # 5)) * 1) false 0 = (true, 0)
  ∧ 0 < ccd.SMALL_TOI
  ∧ retry_misses 0 true 0 = (false, 1 # 2)
  ∧ ccd.ccd_strategy retry_misses 1 (4 # 5) 0
    = Returns (true, 1 # 2)
        [OracleQuery ((1 - (4 # 5)) * 1) false; OracleQuery 0 true]
  ∧ ¬ (1 # 2) == (1 # 2) * (4 # 5).
Proof.
  repeat split; try reflexivity.
  intros Hz. vm_compute in Hz. discriminate Hz.
Qed.

(** [SMALL_TOI] is the [double] next to [1/10^6], which lies below it:
    an impact reported at [1/10^6] is not a small one. *)
Example SMALL_TOI_is_a_double :
  ccd.SMALL_TOI < 1 # 1000000
  ∧ (1 # 1000000) < ccd.SMALL_TOI + (1 # 9444732965739290427392).
Proof. split; reflexivity. Qed.

Lemma ccd_strategy_zero_initial_distance_run :
  ccd.ccd_strategy retry_hits (0 # 7) (4 # 5) 3
  = Returns (true, 0) [LogWarn ccd.warn_zero_distance].
Proof.
  apply (ccd_strategy_zero_initial_distance retry_hits (0 # 7) (4 # 5) 3).
  reflexivity.
Defined.

Lemma two_workers_cover : tbb.covers two_workers 0 3.
Proof.
  unfold tbb.covers. cbn.
  apply Permutation_sym, (Permutation_cons_append [1; 2]%nat 0%nat).
Defined.

Lemma compute_barrier_potential_parallel_sum_run :
  ∃ potential,
    compute_barrier_potential two_workers two_vertices V_2d
      three_constraints 1
    = Returns potential [ParallelFor 0 3]
    ∧ potential
      == sequential_barrier_potential two_vertices V_2d three_constraints 1.
Proof.
  apply (compute_barrier_potential_parallel_sum two_workers two_vertices V_2d
           three_constraints 1);
    [reflexivity | discriminate | exact two_workers_cover].
Defined.

Example compute_barrier_potential_value :
  compute_barrier_potential two_workers two_vertices V_2d three_constraints 1
  = Returns (9 # 2) [ParallelFor 0 3].
Proof. vm_compute. reflexivity. Qed.

Lemma compute_minimum_distance_run :
  (three_constraints = [] →
   compute_minimum_distance two_workers two_vertices V_2d three_constraints
   = Returns Infinity [])
  ∧ (three_constraints ≠ [] →
     ∃ min_dist,
       compute_minimum_distance two_workers two_vertices V_2d
         three_constraints
       = Returns (Fin min_dist) [ParallelFor 0 (length three_constraints)]
       ∧ (∀ c, c ∈ three_constraints →
               min_dist <= compute_distance c V_2d (edges two_vertices)
                             (faces two_vertices))
       ∧ (∃ c, c ∈ three_constraints
               ∧ min_dist == compute_distance c V_2d (edges two_vertices)
                               (faces two_vertices))).
Proof.
  apply (compute_minimum_distance_spec two_workers two_vertices V_2d
           three_constraints);
    [reflexivity | exact two_workers_cover].
Defined.

Example compute_minimum_distance_value :
  compute_minimum_distance two_workers two_vertices V_2d three_constraints
  = Returns (Fin 3) [ParallelFor 0 3].
Proof. vm_compute. reflexivity. Qed.

Lemma empty_constraint_set_shortcuts_run :
  compute_barrier_potential two_workers two_vertices V_3d [] 1 = Returns 0 []
  ∧ (∃ grad,
       compute_barrier_potential_gradient two_workers two_vertices V_3d [] 1
       = Returns grad []
       ∧ length grad = (num_vertices two_vertices * cols V_3d)%nat
       ∧ ∀ x, x ∈ grad → x = 0)
  ∧ (∃ hess,
       compute_barrier_potential_hessian two_workers two_vertices V_3d [] 1 true
       = Returns hess []
       ∧ sm_rows hess = (num_vertices two_vertices * cols V_3d)%nat
       ∧ sm_cols hess = (num_vertices two_vertices * cols V_3d)%nat
       ∧ sm_triplets hess = []
       ∧ ∀ i j, sm_coeff hess i j = 0).
Proof.
  apply (empty_constraint_set_shortcuts two_workers two_vertices V_3d 1 true).
  reflexivity.
Defined.

Example empty_gradient_value :
  compute_barrier_potential_gradient two_workers two_vertices V_3d [] 1
  = Returns [0; 0; 0; 0; 0; 0] [].
Proof. reflexivity. Qed.

Lemma three_constraints_weights :
  ∀ c, c ∈ three_constraints → ¬ weight c == 0.
Proof.
  intros c Hc. repeat (apply elem_of_cons in Hc as [->|Hc]);
    [..|by apply elem_of_nil in Hc];
    intros Hz; vm_compute in Hz; discriminate Hz.
Defined.

Lemma three_constraints_sizes :
  ∀ c, c ∈ three_constraints → sv_size (weight_gradient c) = size V_2d.
Proof.
  intros c Hc. repeat (apply elem_of_cons in Hc as [->|Hc]);
    [..|by apply elem_of_nil in Hc]; reflexivity.
Defined.

Lemma compute_barrier_shape_derivative_run :
  ∃ hess trace shape_derivative,
    compute_barrier_potential_hessian two_workers two_vertices V_2d
      three_constraints 1 false = Returns hess trace
    ∧ compute_barrier_shape_derivative two_workers two_vertices V_2d
        three_constraints 1 = Returns shape_derivative trace
    ∧ sm_rows shape_derivative = sm_rows hess
    ∧ sm_cols shape_derivative = sm_cols hess
    ∧ ∀ i j, sm_coeff shape_derivative i j
             == sm_coeff hess i j
                + outer_product_sum two_vertices V_2d 1 three_constraints i j.
Proof.
  apply (proj1 (compute_barrier_shape_derivative_spec two_vertices V_2d 1
                  two_workers three_constraints));
    [exact three_constraints_weights | exact three_constraints_sizes
    | reflexivity].
Defined.

(** With three constraints of weight 1, 2 and 4: the Hessian gives 3 at
    [(0, 0)] and the outer products add [1 + 1/2 + 1/4]. *)
Example compute_barrier_shape_derivative_value :
  (λ M, Qred (sm_coeff M 0 0)) <$>
    value (compute_barrier_shape_derivative two_workers two_vertices V_2d
             three_constraints 1)
  = Some (19 # 4).
Proof. vm_compute. reflexivity. Qed.

Example compute_barrier_shape_derivative_zero_weight :
  compute_barrier_shape_derivative two_workers two_vertices V_2d
    [constraint_of 1 1 5; constraint_of 0 1 5] 1
  = AssertionFailed.
Proof. vm_compute. reflexivity. Qed.

Lemma three_candidates_not_negative :
  ∀ c tmax toi, c ∈ three_candidates →
    ccd c V_2d V_2d (edges two_vertices) (faces two_vertices) Infinity tmax
      1 10 = (true, toi) →
    dle (Fin 0) toi = true.
Proof.
  intros c tmax toi Hc.
  repeat (apply elem_of_cons in Hc as [->|Hc]);
    [..|by apply elem_of_nil in Hc];
    unfold impact_at, no_impact; cbn [ccd];
    try discriminate;
    destruct (dle _ tmax); try discriminate; by intros [= <-].
Defined.

Lemma three_candidates_not_empty : three_candidates ≠ [].
Proof. discriminate. Defined.

Lemma compute_collision_free_stepsize_minimum_run :
  ∃ (toi : double_inf) (tmax : nat → double_inf),
    compute_collision_free_stepsize interleaved three_candidates
      two_vertices V_2d V_2d 1 10
    = Returns toi [ParallelFor 0 (length three_candidates)]
    ∧ dle toi (Fin 1) = true
    ∧ (∀ i c, three_candidates !! i = Some c →
         dle toi (tmax i) = true ∧ dle (tmax i) (Fin 1) = true
         ∧ ∀ toi_i,
             ccd c V_2d V_2d (edges two_vertices) (faces two_vertices)
               Infinity (tmax i) 1 10 = (true, toi_i) →
             dle toi toi_i = true)
    ∧ (toi = Fin 1
       ∨ ∃ i c, three_candidates !! i = Some c
                ∧ ccd c V_2d V_2d (edges two_vertices) (faces two_vertices)
                    Infinity (tmax i) 1 10 = (true, toi)
                ∧ dlt toi (Fin 1) = true).
Proof.
  apply (proj2 (compute_collision_free_stepsize_minimum three_candidates
                  two_vertices V_2d V_2d 1 10 interleaved eq_refl eq_refl
                  eq_refl three_candidates_not_negative)).
  exact three_candidates_not_empty.
Defined.

Example compute_collision_free_stepsize_value :
  compute_collision_free_stepsize interleaved three_candidates two_vertices
    V_2d V_2d 1 10
  = Returns (Fin (1 # 3)) [ParallelFor 0 3].
Proof. vm_compute. reflexivity. Qed.

(** The three candidates use [tmax] only to bound their search, so every
    schedule gives the step size of the interleaved one. *)
Example three_candidates_search :
  Forall2 (λ c impact,
             searches_up_to_tmax
               (candidate_ccd V_2d V_2d (edges two_vertices)
                  (faces two_vertices) 1 10 c) impact)
          three_candidates [Some (1 # 2); None; Some (1 # 3)].
Proof.
  repeat constructor; intros tmax; unfold candidate_ccd;
    cbn [ccd impact_at no_impact]; try done; by destruct (dle _ tmax).
Qed.

Example sequential_and_interleaved_agree :
  deq (earliest_toi
         (narrow_phase three_candidates V_2d V_2d (edges two_vertices)
            (faces two_vertices) 1 10 (sequential 3)))
      (earliest_toi
         (narrow_phase three_candidates V_2d V_2d (edges two_vertices)
            (faces two_vertices) 1 10 interleaved)).
Proof.
  apply (narrow_phase_schedule_independent _ _ _ _ _ _ _ _ _
           [Some (1 # 2); None; Some (1 # 3)]);
    [apply (sequential_well_formed 3) | by vm_compute
    | exact three_candidates_search].
Qed.

(** A candidate set that is not empty and whose only candidate reports
    no impact: the full step [1] is returned. *)
Lemma compute_collision_free_stepsize_one_without_impact :
  [no_impact] ≠ []
  ∧ compute_collision_free_stepsize (sequential 1) [no_impact] two_vertices
      V_2d V_2d 1 10
    = Returns (Fin 1) [ParallelFor 0 1].
Proof. split; [discriminate | vm_compute; reflexivity]. Qed.

Lemma compute_collision_free_stepsize_range_run :
  ∃ (toi : double_inf) (trace : list event) (tmax : nat → double_inf),
    compute_collision_free_stepsize interleaved three_candidates two_vertices
      V_2d V_2d 1 10 = Returns toi trace
    ∧ dle (Fin 0) toi = true ∧ dle toi (Fin 1) = true
    ∧ (∀ i c, three_candidates !! i = Some c →
         dle toi (tmax i) = true ∧ dle (tmax i) (Fin 1) = true)
    ∧ (toi = Fin 1
       ↔ ∀ i c toi_i, three_candidates !! i = Some c →
           ccd c V_2d V_2d (edges two_vertices) (faces two_vertices) Infinity
             (tmax i) 1 10 = (true, toi_i) →
           dlt toi_i (Fin 1) = false).
Proof.
  apply (proj2 (proj2 (compute_collision_free_stepsize_range three_candidates
                         two_vertices V_2d V_2d 1 10 interleaved)));
    [reflexivity | reflexivity | vm_compute; reflexivity
    | exact three_candidates_not_negative].
Defined.

Lemma has_intersections_run :
  stops_at_first_hit
    (λ c, @segment_segment_intersect toy_collaborators
            (take 2 (row V_2d (icoeff edge_list (edge0_index c) 0)))
            (take 2 (row V_2d (icoeff edge_list (edge0_index c) 1)))
            (take 2 (row V_2d (icoeff edge_list (edge1_index c) 0)))
            (take 2 (row V_2d (icoeff edge_list (edge1_index c) 1))))
    (λ c, ExactTest (edge0_index c) (edge1_index c))
    [ {| edge0_index := 0; edge1_index := 1 |};
      {| edge0_index := 1; edge1_index := 1 |};
      {| edge0_index := 0; edge1_index := 0 |} ]
    (has_intersections (collaborators := toy_collaborators) two_edges V_2d tt)
  ∧ stops_at_first_hit
      (λ c, @is_edge_intersecting_triangle plane_collaborators
              (row V_pierced (icoeff pierced_edges (edge_index c) 0))
              (row V_pierced (icoeff pierced_edges (edge_index c) 1))
              (row V_pierced (icoeff pierced_faces (face_index c) 0))
              (row V_pierced (icoeff pierced_faces (face_index c) 1))
              (row V_pierced (icoeff pierced_faces (face_index c) 2)))
      (λ c, ExactTest (edge_index c) (face_index c))
      [ {| edge_index := 0; face_index := 0 |};
        {| edge_index := 1; face_index := 0 |};
        {| edge_index := 0; face_index := 0 |} ]
      (has_intersections (collaborators := plane_collaborators)
         pierced_triangle V_pierced tt).
Proof.
  split.
  - apply (proj1 (has_intersections_spec (collaborators := toy_collaborators)
                    two_edges V_2d tt eq_refl)).
    reflexivity.
  - apply (proj1 (proj2 (has_intersections_spec
                           (collaborators := plane_collaborators)
                           pierced_triangle V_pierced tt eq_refl))).
    reflexivity.
Defined.

(** The second of three candidates intersects: two tests are made. *)
Example has_intersections_value :
  has_intersections (collaborators := toy_collaborators) two_edges V_2d tt
  = Returns true [ExactTest 0 1; ExactTest 1 1].
Proof. vm_compute. reflexivity. Qed.

(** In 3D the side of the triangle does not pierce it and the second
    candidate does: two tests are made, the third candidate is not
    tested. *)
Example has_intersections_pierced_value :
  has_intersections (collaborators := plane_collaborators) pierced_triangle
    V_pierced tt
  = Returns true [ExactTest 0 0; ExactTest 1 0].
Proof. vm_compute. reflexivity. Qed.

Example has_intersections_3d_value :
  has_intersections (collaborators := toy_collaborators) two_edges V_3d tt
  = Returns false [ExactTest 0 0].
Proof. vm_compute. reflexivity. Qed.

(** Two skew lines at distance one; two parallel lines. *)
Example line_line_distance_skew :
  distance.line_line_distance origin e_x above above_y = Some (1 * 1 / 1).
Proof. reflexivity. Qed.

Example line_line_distance_parallel :
  distance.line_line_distance origin e_x above above_x = None.
Proof. reflexivity. Qed.
End concrete_runs.

(* ===================================================================== *)
(** * Further properties *)

(** ** The controller, branch by branch *)

Section ccd_strategy_branches.
Import ccd.
Variable oracle : Oracle.
Variables initial_distance conservative_rescaling toi0 : double.

Let min_distance := (1 - conservative_rescaling) * initial_distance.

Lemma margin_check :
  Qltb min_distance initial_distance = true
  ↔ 0 < conservative_rescaling * initial_distance.
Proof.
  rewrite Qltb_lt. subst min_distance.
  assert ((1 - conservative_rescaling) * initial_distance
          == initial_distance - conservative_rescaling * initial_distance)
    as -> by ring.
  split; intros; lra.
Qed.

(** X3: whenever a call with a non-zero initial distance returns, the flag
    it returns is the flag of its first query; that query asks for the
    margin [(1 - r) * d] with [no_zero_toi = false], and it is followed by
    at most one more, made only after an impact below [SMALL_TOI]. *)
Theorem ccd_strategy_returns_first_flag (is_impacting : bool) (toi : double)
    (trace : list event) :
  ¬ initial_distance == 0 →
  ccd_strategy oracle initial_distance conservative_rescaling toi0
  = Returns (is_impacting, toi) trace →
  is_impacting = (oracle min_distance false toi0).1
  ∧ (trace = [OracleQuery min_distance false]
     ∨ (trace = [OracleQuery min_distance false; OracleQuery 0 true]
        ∧ is_impacting = true
        ∧ (oracle min_distance false toi0).2 < SMALL_TOI)).
Proof.
  intros Hd%Qeq_bool_false. unfold ccd_strategy. rewrite Hd. cbv zeta.
  fold min_distance.
  destruct (Qltb min_distance initial_distance); [|done]. cbn.
  destruct (oracle min_distance false toi0) as [b toi1]. cbn.
  destruct b; cbn.
  - destruct (Qltb toi1 SMALL_TOI) eqn:Hsmall; cbn.
    + apply Qltb_lt in Hsmall.
      destruct (oracle 0 true toi1) as [[] toi2]; cbn.
      * destruct (Qeq_bool (toi2 * conservative_rescaling) 0); [done|].
        cbn. intros [= <- <- <-]. auto.
      * intros [= <- <- <-]. auto.
    + intros [= <- <- <-]. auto.
  - intros [= <- <- <-]. auto.
Qed.

(** X4: with a non-zero initial distance, a rescaling factor for which
    [r * d] is not positive (a factor that is zero or negative, or a
    negative distance) makes the call abort on a failed assertion instead
    of returning, whatever the oracle answers. *)
Theorem ccd_strategy_margin_assertion :
  ¬ initial_distance == 0 →
  conservative_rescaling * initial_distance <= 0 →
  ccd_strategy oracle initial_distance conservative_rescaling toi0
  = AssertionFailed.
Proof.
  intros Hd%Qeq_bool_false Hle. unfold ccd_strategy. rewrite Hd. cbv zeta.
  fold min_distance.
  destruct (Qltb min_distance initial_distance) eqn:Hm; [|done].
  apply margin_check in Hm. lra.
Qed.

(** X5: a second query that reports an impact at time zero, although it
    was made with [no_zero_toi = true], fails the assertion [toi != 0]. *)
Theorem ccd_strategy_zero_retry_asserts (toi1 toi2 : double) :
  0 < initial_distance →
  0 < conservative_rescaling →
  oracle min_distance false toi0 = (true, toi1) →
  toi1 < SMALL_TOI →
  oracle 0 true toi1 = (true, toi2) →
  toi2 == 0 →
  ccd_strategy oracle initial_distance conservative_rescaling toi0
  = AssertionFailed.
Proof.
  intros Hd Hr H1 Hsmall H2 Hz. unfold ccd_strategy.
  assert (Qeq_bool initial_distance 0 = false) as ->
    by (apply Qeq_bool_false; lra).
  cbv zeta. fold min_distance.
  assert (Qltb min_distance initial_distance = true) as ->.
  { apply margin_check. by apply Qmult_lt_0_compat. }
  cbn. rewrite H1. cbn.
  apply Qltb_lt in Hsmall. rewrite Hsmall. cbn. rewrite H2. cbn.
  assert (Qeq_bool (toi2 * conservative_rescaling) 0 = true) as ->
    by (apply Qeq_bool_iff; rewrite Hz; ring).
  done.
Qed.

End ccd_strategy_branches.

(** ** The distance of two lines: symmetries *)

Section line_line_symmetries.
Import distance.

Lemma fdiv_congruence (x x' y y' : double) :
  x == x' → y == y' → opt_eq (fdiv x y) (fdiv x' y').
Proof.
  intros Hx Hy. unfold fdiv.
  destruct (Qeq_bool y 0) eqn:H0, (Qeq_bool y' 0) eqn:H0'; cbn; try done.
  - apply Qeq_bool_iff in H0. apply Qeq_bool_false in H0'.
    apply H0'. by rewrite <- Hy.
  - apply Qeq_bool_iff in H0'. apply Qeq_bool_false in H0.
    apply H0. by rewrite Hy.
  - by rewrite Hx, Hy.
Qed.

Lemma fdiv_scaled (k x y : double) :
  ¬ k == 0 → opt_eq (fdiv (k * k * x) (k * k * y)) (fdiv x y).
Proof.
  intros Hk. unfold fdiv.
  destruct (Qeq_bool (k * k * y) 0) eqn:H0, (Qeq_bool y 0) eqn:H0'; cbn;
    try done.
  - apply Qeq_bool_iff in H0. apply Qeq_bool_false in H0'.
    apply H0'. apply Qmult_integral in H0 as [H0|H0]; [|done].
    apply Qmult_integral in H0. tauto.
  - apply Qeq_bool_iff in H0'. apply Qeq_bool_false in H0.
    apply H0. rewrite H0'. ring.
  - apply Qeq_bool_false in H0'. field. tauto.
Qed.

Lemma opt_eq_trans (a b c : option double) :
  opt_eq a b → opt_eq b c → opt_eq a c.
Proof.
  destruct a, b, c; cbn; try done. intros ??. by etransitivity.
Qed.

Variables ea0 ea1 eb0 eb1 : Vector3d.

(** X6: the distance does not depend on which of the two lines comes
    first. *)
Theorem line_line_distance_symmetric :
  opt_eq (line_line_distance ea0 ea1 eb0 eb1)
         (line_line_distance eb0 eb1 ea0 ea1).
Proof.
  unfold line_line_distance. apply fdiv_congruence;
    destruct ea0, ea1, eb0, eb1;
    cbv [squaredNorm dot cross sub vx vy vz]; ring.
Qed.

(** X7: the distance depends on the first line, not on the two points
    that give it: any two distinct points of the line give the same
    result, a number or none. *)
Theorem line_line_distance_any_points_of_line (s1 s2 : double) :
  ¬ s1 == s2 →
  opt_eq (line_line_distance (point_on_line ea0 ea1 s1)
                             (point_on_line ea0 ea1 s2) eb0 eb1)
         (line_line_distance ea0 ea1 eb0 eb1).
Proof.
  intros Hs. unfold line_line_distance.
  eapply opt_eq_trans; [|apply (fdiv_scaled (s2 - s1)); lra].
  apply fdiv_congruence; destruct ea0, ea1, eb0, eb1;
    cbv [squaredNorm dot cross sub point_on_line add scale vx vy vz]; ring.
Qed.

(** X8: moving both lines by the same vector does not change the
    distance. *)
Theorem line_line_distance_translation (c : Vector3d) :
  opt_eq (line_line_distance (add ea0 c) (add ea1 c) (add eb0 c) (add eb1 c))
         (line_line_distance ea0 ea1 eb0 eb1).
Proof.
  unfold line_line_distance. apply fdiv_congruence;
    destruct ea0, ea1, eb0, eb1, c;
    cbv [squaredNorm dot cross sub add vx vy vz]; ring.
Qed.

(** X9: a distance that is returned is not negative, and it is zero
    exactly when the two lines have a point in common. *)
Theorem line_line_distance_zero_iff_meet (d : double) :
  line_line_distance ea0 ea1 eb0 eb1 = Some d →
  0 <= d
  ∧ (d == 0 ↔ ∃ s t, veq (point_on_line ea0 ea1 s) (point_on_line eb0 eb1 t)).
Proof.
  unfold line_line_distance, fdiv.
  set (normal := cross (sub ea1 ea0) (sub eb1 eb0)).
  set (line_to_line := dot (sub eb0 ea0) normal).
  destruct (Qeq_bool (squaredNorm normal) 0) eqn:Hn; [done|].
  intros [= <-]. apply Qeq_bool_false in Hn.
  assert (0 < squaredNorm normal) as Hpos
    by (pose proof (squaredNorm_nonneg normal); lra).
  assert (0 <= line_to_line * line_to_line / squaredNorm normal) as Hge.
  { apply Qle_shift_div_l; [done|]. nra. }
  split; [done|]. split.
  - intros Hz.
    exists (closest_on_a ea0 ea1 eb0 eb1), (closest_on_b ea0 ea1 eb0 eb1).
    pose proof (line_line_attained ea0 ea1 eb0 eb1 Hn) as Hatt.
    fold normal line_to_line in Hatt. rewrite Hz in Hatt.
    apply squaredNorm_zero in Hatt.
    destruct (point_on_line ea0 ea1 _), (point_on_line eb0 eb1 _).
    cbv [veq sub vx vy vz] in *. destruct Hatt as (? & ? & ?).
    repeat split; lra.
  - intros (s & t & Heq).
    pose proof (line_line_lower_bound ea0 ea1 eb0 eb1 s t Hpos) as Hlb.
    fold normal line_to_line in Hlb.
    assert (squared_distance (point_on_line ea0 ea1 s)
                             (point_on_line eb0 eb1 t) == 0) as Hz.
    { apply squaredNorm_zero.
      destruct (point_on_line ea0 ea1 s), (point_on_line eb0 eb1 t).
      cbv [veq sub vx vy vz] in *. destruct Heq as (? & ? & ?).
      repeat split; lra. }
    lra.
Qed.

End line_line_symmetries.

(** ** to_3D *)

Section plane_embedding.
Import distance ccd_2d.

(** X10: [to_3D] puts the plane into space without changing distances,
    and two lines of the plane stay in one plane of space: their distance,
    when [line_line_distance] returns one, is zero, and it returns none
    exactly when the directions of the two lines are parallel in the
    plane. *)
Theorem to_3D_lines_of_the_plane (a0 a1 b0 b1 : Vector2d) :
  squared_distance (to_3D a0) (to_3D a1) == squared_distance_2d a0 a1
  ∧ (∀ d, line_line_distance (to_3D a0) (to_3D a1) (to_3D b0) (to_3D b1)
          = Some d → d == 0)
  ∧ (line_line_distance (to_3D a0) (to_3D a1) (to_3D b0) (to_3D b1) = None
     ↔ cross_2d a0 a1 b0 b1 == 0).
Proof.
  destruct a0 as [a0x a0y], a1 as [a1x a1y], b0 as [b0x b0y], b1 as [b1x b1y].
  split; [|split].
  - cbv [squared_distance squared_distance_2d squaredNorm dot sub to_3D
         vx vy vz v2x v2y]. ring.
  - intros d. unfold line_line_distance, fdiv.
    destruct (Qeq_bool _ 0); [done|]. intros [= <-].
    match goal with |- ?l * ?l / _ == 0 => assert (l == 0) as -> end.
    { cbv [dot cross sub to_3D vx vy vz v2x v2y]. ring. }
    unfold Qdiv. ring.
  - unfold line_line_distance, fdiv.
    assert (squaredNorm (cross (sub (to_3D {| v2x := a1x; v2y := a1y |})
                                    (to_3D {| v2x := a0x; v2y := a0y |}))
                               (sub (to_3D {| v2x := b1x; v2y := b1y |})
                                    (to_3D {| v2x := b0x; v2y := b0y |})))
            == cross_2d {| v2x := a0x; v2y := a0y |} {| v2x := a1x; v2y := a1y |}
                        {| v2x := b0x; v2y := b0y |} {| v2x := b1x; v2y := b1y |}
               * cross_2d {| v2x := a0x; v2y := a0y |}
                          {| v2x := a1x; v2y := a1y |}
                          {| v2x := b0x; v2y := b0y |}
                          {| v2x := b1x; v2y := b1y |}) as Hsq.
    { cbv [squaredNorm dot cross sub to_3D cross_2d vx vy vz v2x v2y]. ring. }
    destruct (Qeq_bool _ 0) eqn:Hn.
    + apply Qeq_bool_iff in Hn. rewrite Hsq in Hn. split; [|done].
      intros _. apply Qmult_integral in Hn. tauto.
    + apply Qeq_bool_false in Hn. rewrite Hsq in Hn. split; [done|].
      intros Hz. destruct Hn. rewrite Hz. ring.
Qed.

End plane_embedding.

(** ** Collision-free steps *)

Section collision_free_steps.
Import Eigen ipc ipc_step.
Variable garbage : nat → double_inf.
Variables V0 V1 : MatrixXd.
Variable tolerance : double.
Variable max_iterations : Z.

Lemma collision_free_from_iff (E F : MatrixXi) (candidates : list Candidate) :
  ∀ i,
    collision_free_from garbage V0 V1 E F tolerance max_iterations i candidates
    = true
    ↔ ∀ j c, candidates !! j = Some c →
             (ccd c V0 V1 E F (garbage (i + j)) (Fin 1) tolerance
                max_iterations).1 = false.
Proof.
  induction candidates as [|c cs IH]; intros i; cbn [collision_free_from].
  - split; [|done]. intros _ j c Hj. by rewrite lookup_nil in Hj.
  - destruct (ccd c V0 V1 E F (garbage i) (Fin 1) tolerance max_iterations)
      as [is_collision toi] eqn:Hc.
    destruct is_collision.
    + split; [done|]. intros Hall. specialize (Hall 0%nat c eq_refl).
      rewrite Nat.add_0_r, Hc in Hall. done.
    + rewrite IH. split.
      * intros Hall [|j] c'; cbn [lookup].
        -- intros [= <-]. by rewrite Nat.add_0_r, Hc.
        -- intros Hj. replace (i + S j)%nat with (S i + j)%nat by lia. auto.
      * intros Hall j c' Hj. replace (S i + j)%nat with (i + S j)%nat by lia.
        by apply Hall.
Qed.

(** As long as no call reports an impact before the end of the step, the
    shared bound stays at [1] and every call is given [tmax = 1]. *)
Lemma narrow_phase_stays_one (E F : MatrixXi) (candidates : list Candidate) :
  (∀ c, c ∈ candidates →
        candidate_toi (candidate_ccd V0 V1 E F tolerance max_iterations c
                         (Fin 1)) = Fin 1) →
  ∀ sched st,
    earliest_toi st = Fin 1 →
    (∀ i tmax, in_flight st !! i = Some tmax → tmax = Fin 1) →
    earliest_toi
      (foldl (narrow_phase_step candidates V0 V1 E F tolerance max_iterations)
             st sched) = Fin 1.
Proof.
  intros Hnone. induction sched as [|[i|i] sched IH]; intros st He Hfl;
    cbn [foldl]; [done|..]; apply IH; cbn [narrow_phase_step].
  - by destruct (candidates !! i).
  - destruct (candidates !! i); [|done]. cbn. intros j tmax.
    rewrite lookup_insert. case_decide; [congruence | apply Hfl].
  - destruct (candidates !! i) as [c|] eqn:Hc; [|done].
    destruct (in_flight st !! i) as [tmax|] eqn:Ht; [|done]. cbn.
    rewrite (Hfl _ _ Ht), He. apply Hnone. by eapply list_elem_of_lookup_2.
  - destruct (candidates !! i) as [c|] eqn:Hc; [|done].
    destruct (in_flight st !! i) as [tmax|] eqn:Ht; [|done]. cbn.
    intros j tmax'. rewrite lookup_delete. case_decide; [done | apply Hfl].
Qed.

Variable mesh : CollisionMesh.
Variable candidates : list Candidate.

(** X11: [is_step_collision_free] returns [true] exactly when no candidate,
    searched up to [tmax = 1], reports a collision (so also on the empty
    set), whatever the variable [toi] held before each call. *)
Theorem is_step_collision_free_spec :
  rows V0 = num_vertices mesh →
  rows V1 = num_vertices mesh →
  ∃ free,
    is_step_collision_free garbage candidates mesh V0 V1 tolerance
      max_iterations = Returns free []
    ∧ (free = true
       ↔ ∀ j c, candidates !! j = Some c →
                (ccd c V0 V1 (edges mesh) (faces mesh) (garbage j) (Fin 1)
                   tolerance max_iterations).1 = false).
Proof.
  intros Hrows0 Hrows1. unfold is_step_collision_free.
  rewrite (rows_checked _ _ Hrows0), (rows_checked _ _ Hrows1).
  eexists. split; [reflexivity|].
  apply (collision_free_from_iff (edges mesh) (faces mesh) candidates 0).
Qed.

(** X12: when no candidate, searched up to [tmax = 1], reports an impact
    before the end of the step, the step size is [1] under every
    schedule, well-formed or not. *)
Theorem compute_collision_free_stepsize_full_step (sched : list toi_step) :
  rows V0 = num_vertices mesh →
  rows V1 = num_vertices mesh →
  (∀ c, c ∈ candidates →
        candidate_toi
          (candidate_ccd V0 V1 (edges mesh) (faces mesh) tolerance
             max_iterations c (Fin 1)) = Fin 1) →
  ∃ trace,
    compute_collision_free_stepsize sched candidates mesh V0 V1 tolerance
      max_iterations = Returns (Fin 1) trace.
Proof.
  intros Hrows0 Hrows1 Hnone. unfold compute_collision_free_stepsize.
  rewrite (rows_checked _ _ Hrows0), (rows_checked _ _ Hrows1).
  destruct (empty candidates); [by eexists|]. cbv zeta. unfold narrow_phase.
  rewrite (narrow_phase_stays_one (edges mesh) (faces mesh) candidates Hnone);
    [by eexists | done | cbn; by intros ?? ?%lookup_empty_Some].
Qed.

End collision_free_steps.

Section broad_phase_overloads.
Import Eigen ipc ipc_step.
Context {collaborators : Collaborators}.
Variable construct_collision_candidates :
  CollisionMesh → MatrixXd → MatrixXd → double → BroadPhaseMethod →
  list Candidate.
Variable garbage : nat → double_inf.
Variable mesh : CollisionMesh.
Variables V0 V1 : MatrixXd.
Variable method : BroadPhaseMethod.
Variable tolerance : double.
Variable max_iterations : Z.

(** X13: a step that [is_step_collision_free] accepts gets the full step
    size from [compute_collision_free_stepsize] with the same broad-phase
    method, under every schedule, provided the flag a candidate returns
    does not depend on what [toi] held before the call. *)
Theorem collision_free_step_has_full_stepsize (sched : list toi_step)
    (trace : list event) :
  (∀ c toi,
     c ∈ construct_collision_candidates mesh V0 V1 0 method →
     (ccd c V0 V1 (edges mesh) (faces mesh) toi (Fin 1) tolerance
        max_iterations).1
     = (ccd c V0 V1 (edges mesh) (faces mesh) Infinity (Fin 1) tolerance
          max_iterations).1) →
  is_step_collision_free_broad_phase construct_collision_candidates garbage
    mesh V0 V1 method tolerance max_iterations = Returns true trace →
  ∃ trace',
    compute_collision_free_stepsize_broad_phase construct_collision_candidates
      sched mesh V0 V1 method tolerance max_iterations
    = Returns (Fin 1) trace'.
Proof.
  intros Hflag.
  unfold is_step_collision_free_broad_phase,
    compute_collision_free_stepsize_broad_phase, is_step_collision_free,
    compute_collision_free_stepsize.
  destruct (rows V0 =? num_vertices mesh)%nat; [|done].
  destruct (rows V1 =? num_vertices mesh)%nat; [|done]. cbv zeta.
  set (candidates := construct_collision_candidates mesh V0 V1 0 method) in *.
  cbn. intros [= Hfree _].
  destruct (empty candidates); [by eexists|]. unfold narrow_phase.
  rewrite (narrow_phase_stays_one V0 V1 tolerance max_iterations
             (edges mesh) (faces mesh) candidates);
    [by eexists | | done | cbn; by intros ?? ?%lookup_empty_Some].
  intros c Hc. apply list_elem_of_lookup_1 in Hc as [j Hj].
  pose proof (proj1 (collision_free_from_iff garbage V0 V1 tolerance
                       max_iterations (edges mesh) (faces mesh) candidates 0)
                Hfree j c Hj) as Hno.
  rewrite Hflag in Hno by (by eapply list_elem_of_lookup_2).
  unfold candidate_toi, candidate_ccd.
  by destruct (ccd c _ _ _ _ _ _ _ _) as [[] toi].
Qed.

End broad_phase_overloads.

(** ** The step size as a function of the candidates *)

Section stepsize_determinism.
Import Eigen ipc.
Variable candidates : list Candidate.
Variable mesh : CollisionMesh.
Variables V0 V1 : MatrixXd.
Variable tolerance : double.
Variable max_iterations : Z.

Local Abbreviation call_of :=
  (candidate_ccd V0 V1 (edges mesh) (faces mesh) tolerance max_iterations).

Lemma stepsize_returns_bound sched (impacts : list (option double)) :
  rows V0 = num_vertices mesh →
  rows V1 = num_vertices mesh →
  well_formed (length candidates) sched = true →
  Forall2 (λ c impact, searches_up_to_tmax (call_of c) impact)
          candidates impacts →
  (∀ t, Some t ∈ impacts → 0 <= t) →
  ∃ toi trace,
    compute_collision_free_stepsize sched candidates mesh V0 V1 tolerance
      max_iterations = Returns toi trace
    ∧ dle toi (Fin 1) = true
    ∧ (∀ t, Some t ∈ impacts → dle toi (Fin t) = true)
    ∧ (toi = Fin 1 ∨ ∃ t, Some t ∈ impacts ∧ toi = Fin t).
Proof.
  intros Hrows0 Hrows1 Hwf Hcalls Hpos.
  unfold compute_collision_free_stepsize.
  rewrite (rows_checked _ _ Hrows0), (rows_checked _ _ Hrows1).
  destruct candidates as [|c0 cs] eqn:Hcs.
  { apply Forall2_nil_inv_l in Hcalls as ->. cbn. exists (Fin 1), [].
    split; [done|]. split; [done|]. split; [|by left].
    by intros t ?%elem_of_nil. }
  rewrite <- Hcs in *. rewrite (not_empty candidates) by (by rewrite Hcs).
  cbv zeta.
  destruct (narrow_phase_true_minimum candidates V0 V1 (edges mesh)
              (faces mesh) tolerance max_iterations sched impacts Hwf Hcalls)
    as (Hle1 & Hlow & Hatt).
  set (e := earliest_toi _) in *.
  assert (dle (Fin 0) e = true) as Hge0.
  { destruct Hatt as [->|(i & t & Hi & ->)]; [done|].
    apply Qle_bool_iff, Hpos. by eapply list_elem_of_lookup_2. }
  rewrite Hge0, Hle1. cbn. exists e, [ParallelFor 0 (length candidates)].
  split; [done|]. split; [done|]. split.
  - intros t [i Hi]%list_elem_of_lookup_1. by eapply Hlow.
  - destruct Hatt as [?|(i & t & Hi & ?)]; [by left|]. right. exists t.
    split; [by eapply list_elem_of_lookup_2 | done].
Qed.

(** X14: when every candidate's call uses [tmax] only to bound its search
    (it reports the candidate's time of impact exactly when that time is
    within [tmax]), the step size returned is the least of [1] and the
    times of impact, and two schedules return the same number. *)
Theorem compute_collision_free_stepsize_schedule_independent sched1 sched2
    (impacts : list (option double)) :
  rows V0 = num_vertices mesh →
  rows V1 = num_vertices mesh →
  well_formed (length candidates) sched1 = true →
  well_formed (length candidates) sched2 = true →
  Forall2 (λ c impact, searches_up_to_tmax (call_of c) impact)
          candidates impacts →
  (∀ t, Some t ∈ impacts → 0 <= t) →
  ∃ toi1 toi2 trace1 trace2,
    compute_collision_free_stepsize sched1 candidates mesh V0 V1 tolerance
      max_iterations = Returns toi1 trace1
    ∧ compute_collision_free_stepsize sched2 candidates mesh V0 V1 tolerance
        max_iterations = Returns toi2 trace2
    ∧ deq toi1 toi2
    ∧ dle toi1 (Fin 1) = true
    ∧ (∀ t, Some t ∈ impacts → dle toi1 (Fin t) = true)
    ∧ (toi1 = Fin 1 ∨ ∃ t, Some t ∈ impacts ∧ toi1 = Fin t).
Proof.
  intros Hrows0 Hrows1 Hwf1 Hwf2 Hcalls Hpos.
  destruct (stepsize_returns_bound sched1 impacts Hrows0 Hrows1 Hwf1 Hcalls
              Hpos) as (toi1 & trace1 & Hr1 & H11 & H12 & H13).
  destruct (stepsize_returns_bound sched2 impacts Hrows0 Hrows1 Hwf2 Hcalls
              Hpos) as (toi2 & trace2 & Hr2 & H21 & H22 & H23).
  exists toi1, toi2, trace1, trace2. repeat (split; [done|]).
  split; [|done].
  assert (dle toi1 toi2 = true) as Hle12.
  { destruct H23 as [->|(t & Ht & ->)]; [done | by apply H12]. }
  assert (dle toi2 toi1 = true) as Hle21.
  { destruct H13 as [->|(t & Ht & ->)]; [done | by apply H22]. }
  destruct toi1, toi2; cbn in *; try done.
  apply Qle_bool_iff in Hle12, Hle21. lra.
Qed.

End stepsize_determinism.

(** ** Extents and preconditions of the assembler *)

Section assembler_extents.
Import Eigen ipc.
Variable mesh : CollisionMesh.
Variable V : MatrixXd.
Variable dhat : double.

Lemma merged_hessian_extent (n : nat) (storage : gmap nat (list Triplet)) :
  sm_rows (tbb.merge (λ hess local_hess_triplets,
                        sm_add hess (setFromTriplets n n local_hess_triplets))
                     (sm_empty n n) storage) = n
  ∧ sm_cols (tbb.merge (λ hess local_hess_triplets,
                          sm_add hess (setFromTriplets n n local_hess_triplets))
                       (sm_empty n n) storage) = n.
Proof.
  unfold tbb.merge.
  apply (map_fold_weak_ind (λ acc _, sm_rows acc = n ∧ sm_cols acc = n));
    [done|].
  by intros i x m acc _ [? ?].
Qed.

Lemma shape_derivative_loop_extent constraints : ∀ shape_derivative result trace,
  shape_derivative_loop mesh V dhat constraints shape_derivative
  = Returns result trace →
  sm_rows result = sm_rows shape_derivative
  ∧ sm_cols result = sm_cols shape_derivative.
Proof.
  induction constraints as [|c cs IH]; intros M result trace;
    cbn [shape_derivative_loop].
  - by intros [= <- _].
  - destruct (sv_size (weight_gradient c) =? size V)%nat; [|done].
    destruct (Qeq_bool (weight c) 0); [done|]. cbn.
    destruct (shape_derivative_loop _ _ _ cs _) as [r t|] eqn:Hloop; [|done].
    intros [= <- _]. by apply IH in Hloop.
Qed.

(** X15: for every schedule and every constraint set, the Hessian that is
    returned has [V.size()] rows and columns, and so has the shape
    derivative whenever it is returned. *)
Theorem assembled_matrices_extent (sched : list tbb.task)
    (constraint_set : list CollisionConstraint) (project : bool) :
  rows V = num_vertices mesh →
  (∃ hess trace,
     compute_barrier_potential_hessian sched mesh V constraint_set dhat project
     = Returns hess trace
     ∧ sm_rows hess = size V ∧ sm_cols hess = size V)
  ∧ (∀ shape_derivative trace,
       compute_barrier_shape_derivative sched mesh V constraint_set dhat
       = Returns shape_derivative trace →
       sm_rows shape_derivative = size V ∧ sm_cols shape_derivative = size V).
Proof.
  intros Hrows.
  assert (∀ project, ∃ hess trace,
     compute_barrier_potential_hessian sched mesh V constraint_set dhat project
     = Returns hess trace
     ∧ sm_rows hess = size V ∧ sm_cols hess = size V) as Hh.
  { intros p. unfold compute_barrier_potential_hessian.
    rewrite (rows_checked _ _ Hrows).
    destruct (empty constraint_set); [by eexists _, _|]. cbn.
    eexists _, _. split; [reflexivity|]. apply merged_hessian_extent. }
  split; [apply Hh|]. intros M trace. unfold compute_barrier_shape_derivative.
  destruct (Hh false) as (hess & tr & -> & Hr & Hc). cbn.
  destruct (shape_derivative_loop _ _ _ _ _) as [r t|] eqn:Hloop; [|done].
  intros [= <- _]. apply shape_derivative_loop_extent in Hloop as [-> ->].
  done.
Qed.

(** X16: a configuration whose number of rows is not the number of
    vertices of the mesh makes every entry point fail the assertion on the
    number of rows (for the shape derivative, that of the Hessian it
    calls), whatever the other arguments. *)
Theorem vertex_count_is_checked {collaborators : Collaborators}
    (sched : list tbb.task) (toi_sched : list toi_step)
    (garbage : nat → double_inf)
    (constraint_set : list CollisionConstraint) (candidates : list Candidate)
    (project : bool) (method : BroadPhaseMethod) (W : MatrixXd)
    (tolerance : double) (max_iterations : Z) :
  rows V ≠ num_vertices mesh →
  compute_barrier_potential sched mesh V constraint_set dhat = AssertionFailed
  ∧ compute_barrier_potential_gradient sched mesh V constraint_set dhat
    = AssertionFailed
  ∧ compute_barrier_potential_hessian sched mesh V constraint_set dhat project
    = AssertionFailed
  ∧ compute_barrier_shape_derivative sched mesh V constraint_set dhat
    = AssertionFailed
  ∧ compute_minimum_distance sched mesh V constraint_set = AssertionFailed
  ∧ has_intersections mesh V method = AssertionFailed
  ∧ compute_collision_free_stepsize toi_sched candidates mesh V W tolerance
      max_iterations = AssertionFailed
  ∧ compute_collision_free_stepsize toi_sched candidates mesh W V tolerance
      max_iterations = AssertionFailed
  ∧ ipc_step.is_step_collision_free garbage candidates mesh V W tolerance
      max_iterations = AssertionFailed
  ∧ ipc_step.is_step_collision_free garbage candidates mesh W V tolerance
      max_iterations = AssertionFailed.
Proof.
  intros Hrows%Nat.eqb_neq.
  unfold compute_barrier_shape_derivative, compute_barrier_potential,
    compute_barrier_potential_gradient, compute_barrier_potential_hessian,
    compute_minimum_distance, has_intersections,
    compute_collision_free_stepsize, ipc_step.is_step_collision_free.
  rewrite Hrows. repeat (split; [done|]).
  destruct (rows W =? num_vertices mesh)%nat; repeat (split; [done|]); done.
Qed.

End assembler_extents.

(** ** Reductions over a set made of two parts *)

Section two_parts.
Import Eigen ipc.
Variable mesh : CollisionMesh.
Variable V : MatrixXd.
Variables part1 part2 : list CollisionConstraint.
Variables sched1 sched2 sched : list tbb.task.

Lemma potential_value (dhat : double) (s : list tbb.task)
    (constraint_set : list CollisionConstraint) :
  rows V = num_vertices mesh →
  tbb.covers s 0 (length constraint_set) →
  ∃ potential,
    value (compute_barrier_potential s mesh V constraint_set dhat)
    = Some potential
    ∧ potential == sequential_barrier_potential mesh V constraint_set dhat.
Proof.
  intros Hrows Hcov. unfold compute_barrier_potential.
  rewrite (rows_checked _ _ Hrows).
  destruct constraint_set as [|c cs] eqn:Hcs; [by exists 0|].
  rewrite <- Hcs in *. rewrite (not_empty constraint_set) by (by rewrite Hcs).
  cbn. eexists. split; [reflexivity|].
  apply (parallel_for_reduce Qeq Qplus 0
           (λ x y z, Qeq_sym _ _ (Qplus_assoc x y z)) Qplus_comm Qplus_0_l
           constraint_set
           (λ c, compute_potential c V (edges mesh) (faces mesh) dhat)
           s Hcov).
Qed.

(** X17: the potential of a constraint set made of two parts is the sum of
    the potentials of the parts, each computed under a schedule of its
    own. *)
Theorem compute_barrier_potential_additive (dhat : double) :
  rows V = num_vertices mesh →
  tbb.covers sched1 0 (length part1) →
  tbb.covers sched2 0 (length part2) →
  tbb.covers sched 0 (length (part1 ++ part2)) →
  ∃ potential1 potential2 potential,
    value (compute_barrier_potential sched1 mesh V part1 dhat)
    = Some potential1
    ∧ value (compute_barrier_potential sched2 mesh V part2 dhat)
      = Some potential2
    ∧ value (compute_barrier_potential sched mesh V (part1 ++ part2) dhat)
      = Some potential
    ∧ potential == potential1 + potential2.
Proof.
  intros Hrows Hc1 Hc2 Hc.
  destruct (potential_value dhat sched1 part1 Hrows Hc1) as (p1 & Hv1 & Hp1).
  destruct (potential_value dhat sched2 part2 Hrows Hc2) as (p2 & Hv2 & Hp2).
  destruct (potential_value dhat sched (part1 ++ part2) Hrows Hc)
    as (p & Hv & Hp).
  exists p1, p2, p. repeat (split; [done|]).
  rewrite Hp, Hp1, Hp2. unfold sequential_barrier_potential.
  clear. induction part1 as [|c cs IH]; cbn; [ring|]. rewrite IH. ring.
Qed.

Lemma minimum_distance_value (s : list tbb.task)
    (constraint_set : list CollisionConstraint) :
  rows V = num_vertices mesh →
  tbb.covers s 0 (length constraint_set) →
  ∃ min_dist,
    value (compute_minimum_distance s mesh V constraint_set) = Some min_dist
    ∧ deq min_dist
          (foldr (λ c acc,
                    std_min
                      (Fin (compute_distance c V (edges mesh) (faces mesh)))
                      acc)
                 Infinity constraint_set).
Proof.
  intros Hrows Hcov. unfold compute_minimum_distance.
  rewrite (rows_checked _ _ Hrows).
  destruct constraint_set as [|c cs] eqn:Hcs; [by exists Infinity|].
  rewrite <- Hcs in *. rewrite (not_empty constraint_set) by (by rewrite Hcs).
  cbn. eexists. split; [reflexivity|].
  apply (parallel_for_reduce deq std_min Infinity std_min_assoc std_min_comm
           std_min_left_id constraint_set
           (λ c, Fin (compute_distance c V (edges mesh) (faces mesh)))
           s Hcov).
Qed.

(** X18: the minimum distance of a constraint set made of two parts is the
    smaller of the minimum distances of the parts (positive infinity
    standing for an empty part). *)
Theorem compute_minimum_distance_of_two_parts :
  rows V = num_vertices mesh →
  tbb.covers sched1 0 (length part1) →
  tbb.covers sched2 0 (length part2) →
  tbb.covers sched 0 (length (part1 ++ part2)) →
  ∃ min1 min2 min_dist,
    value (compute_minimum_distance sched1 mesh V part1) = Some min1
    ∧ value (compute_minimum_distance sched2 mesh V part2) = Some min2
    ∧ value (compute_minimum_distance sched mesh V (part1 ++ part2))
      = Some min_dist
    ∧ deq min_dist (std_min min1 min2).
Proof.
  intros Hrows Hc1 Hc2 Hc.
  destruct (minimum_distance_value sched1 part1 Hrows Hc1) as (m1 & Hv1 & Hm1).
  destruct (minimum_distance_value sched2 part2 Hrows Hc2) as (m2 & Hv2 & Hm2).
  destruct (minimum_distance_value sched (part1 ++ part2) Hrows Hc)
    as (m & Hv & Hm).
  exists m1, m2, m. repeat (split; [done|]).
  rewrite Hm, Hm1, Hm2. clear.
  induction part1 as [|c cs IH]; cbn [app foldr].
  - by rewrite std_min_left_id.
  - by rewrite IH, std_min_assoc.
Qed.

End two_parts.

(** ** More concrete runs *)

Section more_concrete_runs.
Import Eigen ipc ipc_step examples more_examples.

(** An impact reported exactly at [SMALL_TOI] is not below it: one
    query, and the time is returned as it is. *)
Lemma ccd_strategy_single_query_run :
  ccd.ccd_strategy impact_at_threshold 1 (3 # 4) 0
  = Returns (true, ccd.SMALL_TOI) [OracleQuery ((1 - (3 # 4)) * 1) false].
Proof.
  apply (ccd_strategy_single_query impact_at_threshold 1 (3 # 4) 0 true
           ccd.SMALL_TOI);
    [reflexivity | reflexivity | reflexivity |].
  right. intros Hlt. vm_compute in Hlt. discriminate Hlt.
Defined.

Lemma ccd_strategy_small_toi_retry_miss_run :
  ccd.ccd_strategy retry_misses 1 (4 # 5) 0
  = Returns (true, 1 # 2)
      [OracleQuery ((1 - (4 # 5)) * 1) false; OracleQuery 0 true].
Proof.
  apply (ccd_strategy_small_toi_retry_miss retry_misses 1 (4 # 5) 0 0 (1 # 2));
    reflexivity.
Defined.

Lemma ccd_strategy_returns_first_flag_run :
  true = (retry_misses ((1 - (4 # 5)) * 1) false 0).1
  ∧ ([OracleQuery ((1 - (4 # 5)) * 1) false; OracleQuery 0 true]
     = [OracleQuery ((1 - (4 # 5)) * 1) false]
     ∨ ([OracleQuery ((1 - (4 # 5)) * 1) false; OracleQuery 0 true]
        = [OracleQuery ((1 - (4 # 5)) * 1) false; OracleQuery 0 true]
        ∧ true = true
        ∧ (retry_misses ((1 - (4 # 5)) * 1) false 0).2 < ccd.SMALL_TOI)).
Proof.
  apply (ccd_strategy_returns_first_flag retry_misses 1 (4 # 5) 0 true (1 # 2));
    [|reflexivity].
  intros Hz. vm_compute in Hz. discriminate Hz.
Defined.

Lemma ccd_strategy_margin_assertion_run :
  ccd.ccd_strategy retry_hits 1 (- (1 # 5)) 0 = AssertionFailed.
Proof.
  apply (ccd_strategy_margin_assertion retry_hits 1 (- (1 # 5)) 0).
  - intros Hz. vm_compute in Hz. discriminate Hz.
  - intros Hlt. vm_compute in Hlt. discriminate Hlt.
Defined.

Lemma ccd_strategy_zero_retry_asserts_run :
  ccd.ccd_strategy always_zero 1 (4 # 5) 0 = AssertionFailed.
Proof.
  apply (ccd_strategy_zero_retry_asserts always_zero 1 (4 # 5) 0 0 0);
    reflexivity.
Defined.

Lemma line_line_distance_any_points_of_line_run :
  opt_eq (distance.line_line_distance
            (distance.point_on_line origin e_x 0)
            (distance.point_on_line origin e_x 2) above above_y)
         (distance.line_line_distance origin e_x above above_y).
Proof.
  apply (line_line_distance_any_points_of_line origin e_x above above_y 0 2).
  intros Hz. vm_compute in Hz. discriminate Hz.
Defined.

Lemma line_line_distance_zero_iff_meet_run :
  0 <= 1 * 1 / 1
  ∧ (1 * 1 / 1 == 0
     ↔ ∃ s t, distance.veq (distance.point_on_line origin e_x s)
                           (distance.point_on_line above above_y t)).
Proof.
  apply (line_line_distance_zero_iff_meet origin e_x above above_y (1 * 1 / 1)).
  reflexivity.
Defined.

Lemma is_step_collision_free_spec_run :
  ∃ free,
    is_step_collision_free some_garbage impact_at_the_end two_vertices V_2d
      V_2d 1 10 = Returns free []
    ∧ (free = true
       ↔ ∀ j c, impact_at_the_end !! j = Some c →
                (ccd c V_2d V_2d (edges two_vertices) (faces two_vertices)
                   (some_garbage j) (Fin 1) 1 10).1 = false).
Proof.
  apply (is_step_collision_free_spec some_garbage V_2d V_2d 1 10 two_vertices
           impact_at_the_end); reflexivity.
Defined.

(** An impact exactly at the end of the step: the step is not collision
    free, and yet the step size is the full step. *)
Example impact_at_the_end_values :
  is_step_collision_free some_garbage impact_at_the_end two_vertices V_2d
    V_2d 1 10 = Returns false []
  ∧ compute_collision_free_stepsize (sequential 2) impact_at_the_end
      two_vertices V_2d V_2d 1 10 = Returns (Fin 1) [ParallelFor 0 2].
Proof. split; vm_compute; reflexivity. Qed.

Lemma impact_at_the_end_not_before :
  ∀ c, c ∈ impact_at_the_end →
    candidate_toi
      (candidate_ccd V_2d V_2d (edges two_vertices) (faces two_vertices) 1 10
         c (Fin 1)) = Fin 1.
Proof.
  intros c Hc. repeat (apply elem_of_cons in Hc as [->|Hc]);
    [..|by apply elem_of_nil in Hc]; reflexivity.
Qed.

Lemma compute_collision_free_stepsize_full_step_run :
  ∃ trace,
    compute_collision_free_stepsize [Call 1; Call 0; Commit 1; Commit 0]%nat
      impact_at_the_end two_vertices V_2d V_2d 1 10 = Returns (Fin 1) trace.
Proof.
  apply (compute_collision_free_stepsize_full_step V_2d V_2d 1 10 two_vertices
           impact_at_the_end);
    [reflexivity | reflexivity | exact impact_at_the_end_not_before].
Defined.

Lemma collision_free_step_has_full_stepsize_run :
  ∃ trace',
    compute_collision_free_stepsize_broad_phase
      (collaborators := toy_collaborators) two_without_impact (sequential 2)
      two_vertices V_2d V_2d tt 1 10 = Returns (Fin 1) trace'.
Proof.
  apply (collision_free_step_has_full_stepsize
           (collaborators := toy_collaborators) two_without_impact some_garbage
           two_vertices V_2d V_2d tt 1 10 (sequential 2) []);
    [|reflexivity].
  intros c toi Hc. repeat (apply elem_of_cons in Hc as [->|Hc]);
    [..|by apply elem_of_nil in Hc]; reflexivity.
Defined.

Lemma three_impacts_not_negative :
  ∀ t, Some t ∈ [Some (1 # 2); None; Some (1 # 3)] → 0 <= t.
Proof.
  intros t Ht. repeat (apply elem_of_cons in Ht as [Ht|Ht]);
    [..|by apply elem_of_nil in Ht]; try discriminate;
    injection Ht as ->; by vm_compute.
Qed.

Lemma compute_collision_free_stepsize_schedule_independent_run :
  ∃ toi1 toi2 trace1 trace2,
    compute_collision_free_stepsize (sequential 3) three_candidates
      two_vertices V_2d V_2d 1 10 = Returns toi1 trace1
    ∧ compute_collision_free_stepsize interleaved three_candidates
        two_vertices V_2d V_2d 1 10 = Returns toi2 trace2
    ∧ deq toi1 toi2
    ∧ dle toi1 (Fin 1) = true
    ∧ (∀ t, Some t ∈ [Some (1 # 2); None; Some (1 # 3)] →
            dle toi1 (Fin t) = true)
    ∧ (toi1 = Fin 1
       ∨ ∃ t, Some t ∈ [Some (1 # 2); None; Some (1 # 3)] ∧ toi1 = Fin t).
Proof.
  apply (compute_collision_free_stepsize_schedule_independent three_candidates
           two_vertices V_2d V_2d 1 10 (sequential 3) interleaved
           [Some (1 # 2); None; Some (1 # 3)]);
    [reflexivity | reflexivity | apply (sequential_well_formed 3)
    | by vm_compute | exact three_candidates_search
    | exact three_impacts_not_negative].
Defined.

Lemma assembled_matrices_extent_run :
  (∃ hess trace,
     compute_barrier_potential_hessian two_workers two_vertices V_2d
       three_constraints 1 true = Returns hess trace
     ∧ sm_rows hess = size V_2d ∧ sm_cols hess = size V_2d)
  ∧ (∀ shape_derivative trace,
       compute_barrier_shape_derivative two_workers two_vertices V_2d
         three_constraints 1 = Returns shape_derivative trace →
       sm_rows shape_derivative = size V_2d
       ∧ sm_cols shape_derivative = size V_2d).
Proof.
  apply (assembled_matrices_extent two_vertices V_2d 1 two_workers
           three_constraints true).
  reflexivity.
Defined.

Lemma vertex_count_is_checked_run :
  compute_barrier_potential two_workers two_vertices V_three_rows
    three_constraints 1 = AssertionFailed
  ∧ compute_barrier_potential_gradient two_workers two_vertices V_three_rows
      three_constraints 1 = AssertionFailed
  ∧ compute_barrier_potential_hessian two_workers two_vertices V_three_rows
      three_constraints 1 true = AssertionFailed
  ∧ compute_barrier_shape_derivative two_workers two_vertices V_three_rows
      three_constraints 1 = AssertionFailed
  ∧ compute_minimum_distance two_workers two_vertices V_three_rows
      three_constraints = AssertionFailed
  ∧ has_intersections (collaborators := toy_collaborators) two_vertices
      V_three_rows tt = AssertionFailed
  ∧ compute_collision_free_stepsize interleaved three_candidates two_vertices
      V_three_rows V_2d 1 10 = AssertionFailed
  ∧ compute_collision_free_stepsize interleaved three_candidates two_vertices
      V_2d V_three_rows 1 10 = AssertionFailed
  ∧ is_step_collision_free some_garbage three_candidates two_vertices
      V_three_rows V_2d 1 10 = AssertionFailed
  ∧ is_step_collision_free some_garbage three_candidates two_vertices
      V_2d V_three_rows 1 10 = AssertionFailed.
Proof.
  apply (vertex_count_is_checked (collaborators := toy_collaborators)
           two_vertices V_three_rows 1 two_workers interleaved some_garbage
           three_constraints three_candidates true tt V_2d 1 10).
  discriminate.
Defined.

Lemma compute_barrier_potential_additive_run :
  ∃ potential1 potential2 potential,
    value (compute_barrier_potential (tbb.single_worker 0 1) two_vertices V_2d
             first_constraint 1) = Some potential1
    ∧ value (compute_barrier_potential (tbb.single_worker 0 2) two_vertices
               V_2d last_two_constraints 1) = Some potential2
    ∧ value (compute_barrier_potential two_workers two_vertices V_2d
               (first_constraint ++ last_two_constraints) 1) = Some potential
    ∧ potential == potential1 + potential2.
Proof.
  apply (compute_barrier_potential_additive two_vertices V_2d first_constraint
           last_two_constraints (tbb.single_worker 0 1) (tbb.single_worker 0 2)
           two_workers 1);
    [reflexivity | apply (single_worker_covers 1)
    | apply (single_worker_covers 2) | exact two_workers_cover].
Defined.

Lemma compute_minimum_distance_of_two_parts_run :
  ∃ min1 min2 min_dist,
    value (compute_minimum_distance (tbb.single_worker 0 1) two_vertices V_2d
             first_constraint) = Some min1
    ∧ value (compute_minimum_distance (tbb.single_worker 0 2) two_vertices
               V_2d last_two_constraints) = Some min2
    ∧ value (compute_minimum_distance two_workers two_vertices V_2d
               (first_constraint ++ last_two_constraints)) = Some min_dist
    ∧ deq min_dist (std_min min1 min2).
Proof.
  apply (compute_minimum_distance_of_two_parts two_vertices V_2d
           first_constraint last_two_constraints (tbb.single_worker 0 1)
           (tbb.single_worker 0 2) two_workers);
    [reflexivity | apply (single_worker_covers 1)
    | apply (single_worker_covers 2) | exact two_workers_cover].
Defined.

End more_concrete_runs.
